(** * Weighted fusion of three rPPG signal estimates ([new/fuse.py])

    A shallow embedding of the batch script that indexes three directory
    trees of CSV files by a normalised video id, intersects the three
    indexes, and writes, for every common id, the fixed-weight combination
    of the three signals together with a diagnostic plot.

    Numbers are IEEE-754 binary64 values ([PrimFloat.float]), which is what
    the NumPy arrays of the script hold.  Dictionaries are [gmap]s, the set
    of common ids is a [gset], the console is a list of structured lines,
    and the [try]/[except] block of [process_fusion] is a small state and
    exception monad. *)

From Stdlib Require Import Ascii String Floats.
From stdpp Require Import gmap strings list fin_maps sorting.

#[local] Set Warnings "-inexact-float,-register-all".

(** ** Python string primitives used by the script *)

Module PyStr.

(** [s.endswith(suf)]: [suf] is [s] itself or a suffix of its tail. *)
Fixpoint endswith (s suf : string) : bool :=
  if String.eqb s suf then true
  else match s with
       | EmptyString => false
       | String _ s' => endswith s' suf
       end.

(** [sub in s] *)
Fixpoint contains (sub s : string) : bool :=
  if String.prefix sub s then true
  else match s with
       | EmptyString => false
       | String _ s' => contains sub s'
       end.

(** Scanning loop of [s.replace(old, new)] for a non-empty [old]:
    [skip] counts the characters of a match still to be dropped. *)
Fixpoint replace_go (old new : string) (skip : nat) (s : string) : string :=
  match s with
  | EmptyString => EmptyString
  | String c s' =>
      match skip with
      | S k => replace_go old new k s'
      | O =>
          if String.prefix old s
          then new +:+ replace_go old new (String.length old - 1) s'
          else String c (replace_go old new O s')
      end
  end.

(** For the empty pattern Python inserts [new] around every character. *)
Fixpoint interleave (new s : string) : string :=
  match s with
  | EmptyString => new
  | String c s' => new +:+ String c (interleave new s')
  end.

(** [s.replace(old, new)]: every non-overlapping occurrence, leftmost
    first. *)
Definition replace (old new s : string) : string :=
  match old with
  | EmptyString => interleave new s
  | String _ _ => replace_go old new O s
  end.

Definition is_dot (c : ascii) : bool := Ascii.eqb c "."%char.

Fixpoint all_dots (s : string) : bool :=
  match s with
  | EmptyString => true
  | String c s' => is_dot c && all_dots s'
  end.

(** [p[:p.rfind(".")]], when [p] has a dot. *)
Fixpoint before_last_dot (p : string) : option string :=
  match p with
  | EmptyString => None
  | String c p' =>
      match before_last_dot p' with
      | Some r => Some (String c r)
      | None => if is_dot c then Some EmptyString else None
      end
  end.

(** [os.path.splitext(p)[0]] for a bare file name (no directory
    separator, as the names listed by [os.walk] are): the part before the
    last dot, unless only dots precede it, in which case the extension is
    empty and the root is the whole name. *)
Definition splitext_root (p : string) : string :=
  match before_last_dot p with
  | Some r => if all_dots r then p else r
  | None => p
  end.

End PyStr.

(** ** Data model *)

(** A directory tree as [os.walk] sees it. *)
Inductive fs_tree :=
| File
| Dir (entries : list (string * fs_tree)).

(** A field of a CSV file, as text. *)
Definition cell := string.

(** What [pd.read_csv] returns: rows of at least one column each, kept as
    the first cell and the remaining ones.  Only the first column
    ([iloc[:, 0]]) and the last one ([iloc[:, -1]]) are ever read. *)
Record DataFrame := { df_rows : list (cell * list cell) }.

(** A Python exception (an instance of [Exception]) with its message. *)
Inductive Exn := Exception (msg : string).

(** The files the script writes.  The CSV has the two columns [Time_Sec]
    and [Weighted_Value]; the graph is determined by the two series it
    plots (its mean marker is [np.mean] of the second).  A CSV whose
    writing broke off holds the rows written until then. *)
Inductive file_content :=
| CsvTable (time_sec : list cell) (weighted_value : list float)
| PngGraph (time_axis : list cell) (signal : list float)
| CsvPartial (time_sec : list cell) (weighted_value : list float).

(** What the script prints, one constructor per message. *)
Inductive line :=
| LStart
| LScanning (root_folder : string)
| LFolderNotFound
| LFound (count : nat)
| LNoMatch
| LMatching (n : nat)
| LFusing (i n : nat) (vid_id : string)
| LDone
| LFailed
| LError (vid_id : string) (e : Exn)
| LSummary (count : nat).

(** The environment of a run:
    - the platform's path separator and the input trees by root path;
    - the result of reading each path as CSV;
    - pandas' numeric reading of a cell as a binary64 value.  pandas types
      a column as a whole, so the reading of a cell depends on the column
      it stands in ([True] is 1 in a column of booleans and no number in
      a mixed column); [None] when the cell is no number there.  An
      integer column is converted when it meets the weights;
    - whether creating the output folder, writing a CSV and rendering a
      graph raise, and what a CSV write that raises leaves behind: the
      path as it was ([None], the file could not be opened) or the file
      cut to its first [k] rows;
    - the order in which the run iterates a set of ids, which depends on
      the hashes of the ids: ids are visited by increasing rank. *)
Record World := {
  os_sep : string;
  fs_roots : gmap string fs_tree;
  csv_at : string → Exn + DataFrame;
  numeric_of : list cell → cell → option float;
  makedirs_error : option Exn;
  to_csv_error : string → option Exn;
  to_csv_leaves : string → option nat;
  savefig_error : string → option Exn;
  set_rank : string → nat;
}.

(** The mutable part: the console and the files written so far. *)
Record State := {
  console : list line;
  out_files : gmap string file_content;
}.

(** ** Configuration *)

Definition PATH_POS : string := "D:\new2\venv\rPPG-Toolbox\new\final_pos_results-".
Definition PATH_PHYSNET : string := "D:\new2\venv\rPPG-Toolbox\new\final_physnet_graphs_full-".
Definition PATH_EFFPHYS : string := "D:\new2\venv\rPPG-Toolbox\new\final_efficientphys_graphs_full-".

Definition OUTPUT_FOLDER : string := "./FINAL_WEIGHTED_RESULTS".

Definition W_EFFPHYS : float := 0.60%float.
Definition W_POS : float := 0.20%float.
Definition W_PHYSNET : float := 0.20%float.

(** ** Statements that may raise and that change the state *)

Inductive outcome (A : Type) :=
| Returned (a : A)
| Raised (e : Exn).
Arguments Returned {A} a.
Arguments Raised {A} e.

Definition M (A : Type) : Type := State → outcome A * State.

#[global] Instance M_ret : MRet M := λ A a st, (Returned a, st).

#[global] Instance M_bind : MBind M := λ A B f m st,
  match m st with
  | (Returned a, st') => f a st'
  | (Raised e, st') => (Raised e, st')
  end.

Definition raise {A} (e : Exn) : M A := λ st, (Raised e, st).

Definition print (l : line) : M unit := λ st,
  (Returned tt, {| console := console st ++ [l]; out_files := out_files st |}).

Definition write_file (path : string) (c : file_content) : M unit := λ st,
  (Returned tt, {| console := console st; out_files := <[path := c]> (out_files st) |}).

(** [os.path.join(a, b)] for a folder [a] without trailing separator and a
    relative name [b]. *)
Definition path_join (w : World) (a b : string) : string :=
  a +:+ os_sep w +:+ b.

(** [d[k]] on a dictionary: [KeyError] when the key is absent. *)
Definition dict_get (d : gmap string string) (k : string) : M string :=
  match d !! k with
  | Some v => mret v
  | None => raise (Exception ("KeyError: " +:+ k))
  end.

(** ** [map_files] *)

(** [os.walk(top)], top-down: one triple per directory; nothing at all when
    [top] is not a directory. *)
Fixpoint os_walk (w : World) (top : string) (t : fs_tree)
  : list (string * list string * list string) :=
  match t with
  | File => []
  | Dir entries =>
      (top,
       omap (λ e, match e.2 with Dir _ => Some e.1 | File => None end) entries,
       omap (λ e, match e.2 with File => Some e.1 | Dir _ => None end) entries)
      :: (fix below (l : list (string * fs_tree)) :=
            match l with
            | [] => []
            | (name, sub) :: l' => os_walk w (path_join w top name) sub ++ below l'
            end) entries
  end.

(** Line 44: the three suffix tokens are removed wherever they occur. *)
Definition strip_tokens (vid_id : string) : string :=
  PyStr.replace "_clean" ""
    (PyStr.replace "_trace" "" (PyStr.replace "_filtered" "" vid_id)).

(** Lines 43-44: the id of a file name. *)
Definition clean_id (file : string) : string :=
  let vid_id := PyStr.splitext_root file in
  strip_tokens vid_id.

(** Line 40: the files that are indexed. *)
Definition indexed (file : string) : bool :=
  PyStr.endswith file ".csv" && negb (PyStr.contains "ensemble" file).

(** Body of the inner loop, on the pair [(file_map, count)]. *)
Definition index_file (w : World) (root : string)
    (acc : gmap string string * nat) (file : string) : gmap string string * nat :=
  if indexed file
  then (<[clean_id file := path_join w root file]> acc.1, S acc.2)
  else acc.

(** Body of the outer loop. *)
Definition index_dir (w : World) (acc : gmap string string * nat)
    (entry : string * list string * list string) : gmap string string * nat :=
  foldl (index_file w entry.1.1) acc entry.2.

Definition index_walk (w : World)
    (walk : list (string * list string * list string)) : gmap string string * nat :=
  foldl (index_dir w) (∅, 0) walk.

Definition map_files (w : World) (root_folder : string) : M (gmap string string) :=
  let file_map : gmap string string := ∅ in
  _ ← print (LScanning root_folder);
  match fs_roots w !! root_folder with
  | None => _ ← print LFolderNotFound; mret file_map
  | Some t =>
      let r := index_walk w (os_walk w root_folder t) in
      _ ← print (LFound r.2);
      mret r.1
  end.

(** ** [process_fusion] *)

(** [pd.read_csv(path)] *)
Definition read_csv (w : World) (path : string) : M DataFrame := λ st,
  match csv_at w path with
  | inl e => (Raised e, st)
  | inr df => (Returned df, st)
  end.

(** [df.iloc[:, -1]]: the last cell of every row. *)
Definition iloc_last_column (df : DataFrame) : list cell :=
  (λ r, List.last r.2 r.1) <$> df_rows df.

(** [df.iloc[:n, 0]]: the first cell of the first [n] rows. *)
Definition iloc_first_column (n : nat) (df : DataFrame) : list cell :=
  take n (fst <$> df_rows df).

(** [pd.to_numeric(col, errors='coerce')]: every cell read within the
    column, NaN where there is no number. *)
Definition to_numeric_coerce (w : World) (col : list cell) : list float :=
  (λ c, default nan (numeric_of w col c)) <$> col.

(** [.fillna(0)] *)
Definition fillna_zero (col : list float) : list float :=
  (λ x, if is_nan x then 0%float else x) <$> col.

(** Lines 65-67: the signal of a file. *)
Definition signal_of (w : World) (df : DataFrame) : list float :=
  fillna_zero (to_numeric_coerce w (iloc_last_column df)).

(** [arr * k] and [a + b] on arrays of one length. *)
Definition scale (arr : list float) (k : float) : list float :=
  (λ x, (x * k)%float) <$> arr.

Definition add_arrays (a b : list float) : list float :=
  zip_with (λ x y, (x + y)%float) a b.

(** Line 82. *)
Definition weighted (s_pos s_phy s_eff : list float) : list float :=
  add_arrays (add_arrays (scale s_pos W_POS) (scale s_phy W_PHYSNET))
             (scale s_eff W_EFFPHYS).

(** [DataFrame({...}).to_csv(path, index=False)]: the target is opened
    (and emptied) before the rows are written, so a write that raises may
    leave a shortened file. *)
Definition to_csv (w : World) (path : string)
    (time_sec : list cell) (weighted_value : list float) : M unit :=
  match to_csv_error w path with
  | Some e =>
      match to_csv_leaves w path with
      | Some k =>
          _ ← write_file path (CsvPartial (take k time_sec) (take k weighted_value));
          raise e
      | None => raise e
      end
  | None => write_file path (CsvTable time_sec weighted_value)
  end.

(** Lines 92-105: the figure, its mean marker and [plt.savefig]. *)
Definition save_graph (w : World) (path : string)
    (time_axis : list cell) (signal : list float) : M unit :=
  match savefig_error w path with
  | Some e => raise e
  | None => write_file path (PngGraph time_axis signal)
  end.

Definition out_csv_path (w : World) (vid_id : string) : string :=
  path_join w OUTPUT_FOLDER (vid_id +:+ "_weighted.csv").

Definition out_png_path (w : World) (vid_id : string) : string :=
  path_join w OUTPUT_FOLDER (vid_id +:+ "_graph.png").

(** The body of the [try] block. *)
Definition fusion_body (w : World) (vid_id p_pos p_phy p_eff : string) : M bool :=
  df_pos ← read_csv w p_pos;
  df_phy ← read_csv w p_phy;
  df_eff ← read_csv w p_eff;
  let s_pos := signal_of w df_pos in
  let s_phy := signal_of w df_phy in
  let s_eff := signal_of w df_eff in
  let min_len := Nat.min (Nat.min (length s_pos) (length s_phy)) (length s_eff) in
  if decide (min_len < 30) then mret false
  else
    let s_pos := take min_len s_pos in
    let s_phy := take min_len s_phy in
    let s_eff := take min_len s_eff in
    let time_axis := iloc_first_column min_len df_pos in
    let weighted_signal := weighted s_pos s_phy s_eff in
    _ ← to_csv w (out_csv_path w vid_id) time_axis weighted_signal;
    _ ← save_graph w (out_png_path w vid_id) time_axis weighted_signal;
    mret true.

(** The [try]/[except Exception] around it: an exception is printed and
    turned into [False]; the state reached when it was raised is kept. *)
Definition process_fusion (w : World) (vid_id p_pos p_phy p_eff : string) : M bool :=
  λ st,
    match fusion_body w vid_id p_pos p_phy p_eff st with
    | (Returned b, st') => (Returned b, st')
    | (Raised e, st') => (_ ← print (LError vid_id e); mret false) st'
    end.

(** ** [main] *)

(** The [for] loop of lines 136-143 over the ids still to visit; [i] is
    the index [enumerate] gives to the first of them. *)
Fixpoint fuse_loop (w : World) (map_pos map_phy map_eff : gmap string string)
    (n i : nat) (ids : list string) (count : nat) : M nat :=
  match ids with
  | [] => mret count
  | vid_id :: rest =>
      _ ← print (LFusing (i + 1) n vid_id);
      p_pos ← dict_get map_pos vid_id;
      p_phy ← dict_get map_phy vid_id;
      p_eff ← dict_get map_eff vid_id;
      ok ← process_fusion w vid_id p_pos p_phy p_eff;
      if ok : bool
      then _ ← print LDone; fuse_loop w map_pos map_phy map_eff n (S i) rest (count + 1)
      else _ ← print LFailed; fuse_loop w map_pos map_phy map_eff n (S i) rest count
  end.

(** [os.makedirs(OUTPUT_FOLDER, exist_ok=True)] *)
Definition makedirs (w : World) : M unit :=
  match makedirs_error w with
  | Some e => raise e
  | None => mret tt
  end.

(** Line 126. *)
Definition common_ids_of (map_pos map_phy map_eff : gmap string string) : gset string :=
  dom map_pos ∩ dom map_phy ∩ dom map_eff.

(** Iterating a Python set: its elements, each once, in the order of the
    run (by increasing rank; [elements] only enumerates the set). *)
Definition visited_before (w : World) (a b : string) : Prop :=
  set_rank w a ≤ set_rank w b.

#[global] Instance visited_before_dec (w : World) (a b : string) :
  Decision (visited_before w a b) := decide (set_rank w a ≤ set_rank w b).

Definition set_iteration (w : World) (ids : gset string) : list string :=
  merge_sort (visited_before w) (elements ids).

Definition main (w : World) : M unit :=
  _ ← print LStart;
  _ ← makedirs w;
  map_pos ← map_files w PATH_POS;
  map_phy ← map_files w PATH_PHYSNET;
  map_eff ← map_files w PATH_EFFPHYS;
  let common_ids := common_ids_of map_pos map_phy map_eff in
  if decide (common_ids = ∅) then print LNoMatch
  else
    _ ← print (LMatching (size common_ids));
    count ← fuse_loop w map_pos map_phy map_eff (size common_ids) 0
              (set_iteration w common_ids) 0;
    print (LSummary count).

(** ** The signal of a file, in the words of the specification

    "Inputs: tabular files (last column = signal)", "coerce to numeric
    with invalid entries treated as zero".  These definitions do not use
    the ones of [process_fusion]; the statements about the fused values
    name their operands through them. *)

Module Spec.

(** The cells of a row, from the first column to the last. *)
Definition cells (row : cell * list cell) : list cell := row.1 :: row.2.

(** The cell of a row in the last column. *)
Definition last_cell (row : cell * list cell) : cell :=
  default row.1 (last (cells row)).

(** The signal column of a file: the last cell of every row. *)
Definition signal_column (df : DataFrame) : list cell :=
  last_cell <$> df_rows df.

(** The numeric value of a cell of a column: the number it reads as,
    and zero for an invalid entry (no number, or not-a-number). *)
Definition value (w : World) (column : list cell) (c : cell) : float :=
  match numeric_of w column c with
  | Some v => if is_nan v then 0%float else v
  | None => 0%float
  end.

(** The value of the signal of a file in one of its rows. *)
Definition signal_value (w : World) (df : DataFrame) (row : cell * list cell)
  : float :=
  value w (signal_column df) (last_cell row).

(** The common length of three files: the least of their row counts. *)
Definition common_length (d_pos d_phy d_eff : DataFrame) : nat :=
  Nat.min (Nat.min (length (df_rows d_pos)) (length (df_rows d_phy)))
          (length (df_rows d_eff)).

End Spec.

(** ** Auxiliary descriptions used in the statements and proofs *)

(** The character [c] appears in [s]. *)
Fixpoint mentions (c : ascii) (s : string) : bool :=
  match s with
  | EmptyString => false
  | String d s' => Ascii.eqb c d || mentions c s'
  end.

(** Nothing, or something that starts with [c]. *)
Definition opens_with (c : ascii) (b : string) : Prop :=
  b = "" ∨ ∃ b', b = String c b'.

(** A directory listing without the files that are not indexed. *)
Definition keep_indexed (entry : string * list string * list string)
  : string * list string * list string :=
  (entry.1, filter (λ file, indexed file) entry.2).

(** The dictionary [map_files] returns for a root folder. *)
Definition index_of (w : World) (root_folder : string) : gmap string string :=
  match fs_roots w !! root_folder with
  | None => ∅
  | Some t => (index_walk w (os_walk w root_folder t)).1
  end.

(** The lines [map_files] prints for a root folder. *)
Definition scan_lines (w : World) (root_folder : string) : list line :=
  LScanning root_folder ::
  match fs_roots w !! root_folder with
  | None => [LFolderNotFound]
  | Some t => [LFound (index_walk w (os_walk w root_folder t)).2]
  end.

(** The state after some more lines. *)
Definition say (ls : list line) (st : State) : State :=
  {| console := console st ++ ls; out_files := out_files st |}.

(** How the [try] block ends; it does not depend on the state it starts
    from (lemma [fusion_body_shape]). *)
Definition fusion_outcome (w : World) (vid_id p_pos p_phy p_eff : string)
  : outcome bool :=
  (fusion_body w vid_id p_pos p_phy p_eff {| console := []; out_files := ∅ |}).1.

(** What is printed for an id after its [LFusing] line. *)
Definition verdict_lines (vid_id : string) (o : outcome bool) : list line :=
  match o with
  | Returned true => [LDone]
  | Returned false => [LFailed]
  | Raised e => [LError vid_id e; LFailed]
  end.

(** What the loop prints for the ids [ids], the first of index [i]. *)
Fixpoint loop_lines (w : World) (map_pos map_phy map_eff : gmap string string)
    (n i : nat) (ids : list string) : list line :=
  match ids with
  | [] => []
  | vid_id :: rest =>
      LFusing (i + 1) n vid_id ::
      match map_pos !! vid_id, map_phy !! vid_id, map_eff !! vid_id with
      | Some p_pos, Some p_phy, Some p_eff =>
          verdict_lines vid_id (fusion_outcome w vid_id p_pos p_phy p_eff)
          ++ loop_lines w map_pos map_phy map_eff n (S i) rest
      | _, _, _ => []
      end
  end.

(** A path that is neither the CSV nor the graph of [vid_id]. *)
Definition foreign_to (w : World) (vid_id path : string) : Prop :=
  path ≠ out_csv_path w vid_id ∧ path ≠ out_png_path w vid_id.

(** Every id of [ids] has a path in each of the three dictionaries. *)
Definition all_mapped (map_pos map_phy map_eff : gmap string string)
    (ids : list string) : Prop :=
  ∀ v, v ∈ ids →
    is_Some (map_pos !! v) ∧ is_Some (map_phy !! v) ∧ is_Some (map_eff !! v).

(** The place of an id in a list: the index of its first occurrence. *)
Fixpoint position (v : string) (l : list string) : nat :=
  match l with
  | [] => 0
  | x :: l' => if decide (x = v) then 0 else S (position v l')
  end.

(** ** A sample run

    A small world on which the statements below are exercised: four
    recordings, of which [foo] is complete, [bar] has an unreadable POS
    file, [tiny] has a five-row EfficientPhys file, [dim] cannot be
    plotted, and [baz] is missing from the EfficientPhys tree.  The run
    visits the ids in an order that is not the one of [elements]. *)

Module Sample.

Definition boolean (c : cell) : bool :=
  bool_decide (c = "True") || bool_decide (c = "False").

(** Booleans are numbers in a column of booleans only. *)
Definition numeric (column : list cell) (c : cell) : option float :=
  if decide (c = "1") then Some 1%float
  else if decide (c = "2.5") then Some 2.5%float
  else if decide (c = "-4") then Some (-4)%float
  else if decide (c = "nan") then Some nan
  else if boolean c && forallb boolean column
  then Some (if bool_decide (c = "True") then 1%float else 0%float)
  else None.

(** A three-column frame whose last column is [signal]. *)
Definition frame (signal : list cell) : DataFrame :=
  {| df_rows := (λ c, ("0.033", ["roi"; c])) <$> signal |}.

Definition pos_frame : DataFrame :=
  frame (["1"; "n/a"; "nan"] ++ replicate 29 "1").
Definition phy_frame : DataFrame := frame (replicate 30 "2.5").
Definition eff_frame : DataFrame := frame (replicate 31 "-4").
Definition tiny_frame : DataFrame := frame (replicate 5 "-4").
Definition bool_frame : DataFrame := frame (replicate 30 "True").
Definition mixed_frame : DataFrame := frame (["True"; "1"] ++ replicate 28 "2.5").

Definition csv (path : string) : Exn + DataFrame :=
  if PyStr.contains "bar_trace" path then inl (Exception "ParserError")
  else if PyStr.contains "tiny_clean" path then inr tiny_frame
  else if PyStr.contains "final_pos" path then inr pos_frame
  else if PyStr.contains "final_physnet" path then inr phy_frame
  else if PyStr.contains "final_efficientphys" path then inr eff_frame
  else inl (Exception "FileNotFoundError").

Definition pos_tree : fs_tree :=
  Dir [("foo_filtered.csv", File); ("bar_trace.csv", File);
       ("foo_ensemble.csv", File); ("notes.txt", File);
       ("batch2", Dir [("baz_clean.csv", File); ("tiny.csv", File);
                       ("dim.csv", File)])].
Definition phy_tree : fs_tree :=
  Dir [("foo_trace.csv", File); ("bar.csv", File); ("baz.csv", File);
       ("tiny_trace.csv", File); ("dim_filtered.csv", File)].
Definition eff_tree : fs_tree :=
  Dir [("foo_clean.csv", File); ("bar_clean.csv", File);
       ("tiny_clean.csv", File); ("dim.csv", File)].

(** The order of one run: [bar], [dim], [tiny], [foo]. *)
Definition rank (vid_id : string) : nat :=
  if decide (vid_id = "bar") then 0
  else if decide (vid_id = "dim") then 1
  else if decide (vid_id = "tiny") then 2
  else 3.

Definition world : World :=
  {| os_sep := "\";
     fs_roots := {[ PATH_POS := pos_tree; PATH_PHYSNET := phy_tree;
                    PATH_EFFPHYS := eff_tree ]};
     csv_at := csv;
     numeric_of := numeric;
     makedirs_error := None;
     to_csv_error := λ _, None;
     to_csv_leaves := λ _, None;
     savefig_error := λ path,
       if PyStr.contains "dim_graph" path
       then Some (Exception "MemoryError") else None;
     set_rank := rank |}.

Definition start : State := {| console := []; out_files := ∅ |}.

Definition pos_path (file : string) : string := path_join world PATH_POS file.
Definition phy_path (file : string) : string := path_join world PATH_PHYSNET file.
Definition eff_path (file : string) : string := path_join world PATH_EFFPHYS file.

End Sample.

(** ** Further descriptions for the properties of the whole script *)

(** [file] lies in the directory [dir] of the tree [t] rooted at [top]:
    directly, or in one of its subfolders at any depth. *)
Inductive tree_file (w : World) : string → fs_tree → string → string → Prop :=
| tree_file_here (top : string) (entries : list (string * fs_tree)) (file : string) :
    (file, File) ∈ entries →
    tree_file w top (Dir entries) top file
| tree_file_below (top : string) (entries : list (string * fs_tree))
    (name : string) (sub : fs_tree) (dir file : string) :
    (name, sub) ∈ entries →
    tree_file w (path_join w top name) sub dir file →
    tree_file w top (Dir entries) dir file.

(** All file names a walk lists, in the order the loops visit them. *)
Definition walk_files (walk : list (string * list string * list string))
  : list string :=
  mjoin (snd <$> walk).

(** Whether the call for [vid_id] in the loop answers [True]. *)
Definition fusion_succeeds (w : World) (map_pos map_phy map_eff : gmap string string)
    (vid_id : string) : bool :=
  match map_pos !! vid_id, map_phy !! vid_id, map_eff !! vid_id with
  | Some p_pos, Some p_phy, Some p_eff =>
      match fusion_outcome w vid_id p_pos p_phy p_eff with
      | Returned true => true
      | _ => false
      end
  | _, _, _ => false
  end.

(** The announcements among printed lines: position, total and id. *)
Definition announcements (ls : list line) : list (nat * nat * string) :=
  omap (λ l, match l with LFusing i n v => Some (i, n, v) | _ => None end) ls.

(** The files the [try] block writes, whatever was there before. *)
Definition fusion_writes (w : World) (vid_id p_pos p_phy p_eff : string)
  : gmap string file_content :=
  out_files (fusion_body w vid_id p_pos p_phy p_eff
               {| console := []; out_files := ∅ |}).2.

(** The files the loop writes for the ids [ids]; a later id overwrites an
    earlier one, and an id without its three paths ends the loop. *)
Fixpoint loop_writes (w : World) (map_pos map_phy map_eff : gmap string string)
    (ids : list string) : gmap string file_content :=
  match ids with
  | [] => ∅
  | vid_id :: rest =>
      match map_pos !! vid_id, map_phy !! vid_id, map_eff !! vid_id with
      | Some p_pos, Some p_phy, Some p_eff =>
          loop_writes w map_pos map_phy map_eff rest
          ∪ fusion_writes w vid_id p_pos p_phy p_eff
      | _, _, _ => ∅
      end
  end.

(** ** More sample worlds

    Variations of the sample run: a tree in which several files share an
    id, a run in which the EfficientPhys folder is missing, and a run in
    which the output folder cannot be created. *)

Module Sample2.

Definition dup_root : string := "D:\dup".

Definition dup_tree : fs_tree :=
  Dir [("a_clean.csv", File); ("a.csv", File);
       ("deep", Dir [("deeper", Dir [("a_trace.csv", File); ("b.csv", File)])])].

Definition with_roots (roots : gmap string fs_tree) (mk : option Exn) : World :=
  {| os_sep := os_sep Sample.world;
     fs_roots := roots;
     csv_at := csv_at Sample.world;
     numeric_of := numeric_of Sample.world;
     makedirs_error := mk;
     to_csv_error := to_csv_error Sample.world;
     to_csv_leaves := to_csv_leaves Sample.world;
     savefig_error := savefig_error Sample.world;
     set_rank := set_rank Sample.world |}.

Definition dup_world : World := with_roots {[ dup_root := dup_tree ]} None.

Definition no_eff_world : World :=
  with_roots {[ PATH_POS := Sample.pos_tree; PATH_PHYSNET := Sample.phy_tree ]} None.

Definition read_only_world : World :=
  with_roots (fs_roots Sample.world) (Some (Exception "PermissionError")).

(** A world in which every CSV write breaks off after seven rows. *)
Definition full_disk_world : World :=
  {| os_sep := os_sep Sample.world;
     fs_roots := fs_roots Sample.world;
     csv_at := csv_at Sample.world;
     numeric_of := numeric_of Sample.world;
     makedirs_error := None;
     to_csv_error := λ _, Some (Exception "OSError");
     to_csv_leaves := λ _, Some 7;
     savefig_error := savefig_error Sample.world;
     set_rank := set_rank Sample.world |}.

(** A state in which the output folder already holds files: an old CSV
    of [baz], an old CSV of [foo] and a file of another kind. *)
Definition used_start : State :=
  {| console := [];
     out_files :=
       {[ out_csv_path Sample.world "baz" := CsvTable ["0"; "1"] [1%float; 2%float];
          out_csv_path Sample.world "foo" := CsvTable ["0"] [9%float];
          path_join Sample.world OUTPUT_FOLDER "notes.txt" := PngGraph [] [] ]} |}.

End Sample2.

(** * Properties *)

(** ** The string primitives on examples *)

Example endswith_csv : PyStr.endswith "a_b.csv" ".csv" = true.
Proof. reflexivity. Qed.

Example endswith_not_csv : PyStr.endswith "a_b.csv.bak" ".csv" = false.
Proof. reflexivity. Qed.

Example contains_ensemble : PyStr.contains "ensemble" "s1_ensemble_avg.csv" = true.
Proof. reflexivity. Qed.

Example replace_nonoverlapping : PyStr.replace "aa" "" "aaaxaa" = "ax".
Proof. reflexivity. Qed.

Example replace_empty_pattern : PyStr.replace "" "-" "ab" = "-a-b-".
Proof. reflexivity. Qed.

Example splitext_plain : PyStr.splitext_root "v1.2_trace.csv" = "v1.2_trace".
Proof. reflexivity. Qed.

Example splitext_hidden : PyStr.splitext_root ".csv" = ".csv".
Proof. reflexivity. Qed.

Example splitext_leading_dots : PyStr.splitext_root "..a.csv" = "..a".
Proof. reflexivity. Qed.

(** ** Strings *)

Section StringFacts.

Lemma append_nil_r (s : string) : s +:+ "" = s.
Proof. induction s as [|c s IH]; [done|]. by rewrite <-IH at 2. Qed.

Lemma append_cons (c : ascii) (a b : string) :
  String c a +:+ b = String c (a +:+ b).
Proof. reflexivity. Qed.

Lemma append_assoc (a b c : string) : (a +:+ b) +:+ c = a +:+ b +:+ c.
Proof.
  induction a as [|x a IH]; [done|].
  by rewrite !append_cons, IH.
Qed.

Lemma append_inv_head (a x y : string) : a +:+ x = a +:+ y → x = y.
Proof.
  induction a as [|c a IH]; [done|].
  rewrite !append_cons. intros [= H]. auto.
Qed.

Lemma length_append (a b : string) :
  String.length (a +:+ b) = String.length a + String.length b.
Proof. induction a as [|c a IH]; [done|]. rewrite append_cons. simpl. by rewrite IH. Qed.

Lemma append_inv_tail (x y a : string) : x +:+ a = y +:+ a → x = y.
Proof.
  revert y. induction x as [|c x IH]; intros [|d y] H.
  - done.
  - apply (f_equal String.length) in H.
    rewrite !length_append in H. simpl in H. lia.
  - apply (f_equal String.length) in H.
    rewrite !length_append in H. simpl in H. lia.
  - rewrite !append_cons in H. injection H as -> H. f_equal. by apply IH.
Qed.

Lemma prefix_append (p s : string) : String.prefix p (p +:+ s) = true.
Proof.
  induction p as [|c p IH]; [by destruct s|].
  rewrite append_cons. simpl. by destruct (ascii_dec c c).
Qed.

Lemma prefix_inv (p s : string) :
  String.prefix p s = true → ∃ r, s = p +:+ r.
Proof.
  revert s. induction p as [|c p IH]; intros s H.
  - by exists s.
  - destruct s as [|d s]; [done|]. simpl in H.
    destruct (ascii_dec c d) as [->|]; [|done].
    destruct (IH _ H) as [r ->]. by exists r.
Qed.

(** [endswith] is the suffix relation. *)
Lemma endswith_spec (s suf : string) :
  PyStr.endswith s suf = true ↔ ∃ p, s = p +:+ suf.
Proof.
  split.
  - induction s as [|c s IH]; cbn [PyStr.endswith].
    + destruct (String.eqb_spec "" suf) as [<-|]; [|done]. by exists "".
    + destruct (String.eqb_spec (String c s) suf) as [<-|].
      * by exists "".
      * intros [p ->]%IH. by exists (String c p).
  - intros [p ->]. induction p as [|c p IH].
    + change ("" +:+ suf) with suf.
      destruct suf as [|c suf]; [done|].
      cbn [PyStr.endswith]. by rewrite String.eqb_refl.
    + rewrite append_cons. cbn [PyStr.endswith]. rewrite IH. by destruct (String.eqb _ _).
Qed.

(** [contains] is the substring relation. *)
Lemma contains_spec (sub s : string) :
  PyStr.contains sub s = true ↔ ∃ a b, s = a +:+ sub +:+ b.
Proof.
  split.
  - induction s as [|c s IH]; cbn [PyStr.contains].
    + destruct (String.prefix sub "") eqn:E; [|done].
      destruct (prefix_inv _ _ E) as [r ->]. by exists "", r.
    + destruct (String.prefix sub (String c s)) eqn:E.
      * destruct (prefix_inv _ _ E) as [r ->]. by exists "", r.
      * intros (a & b & ->)%IH. by exists (String c a), b.
  - intros (a & b & ->). induction a as [|c a IH].
    + change ("" +:+ sub +:+ b) with (sub +:+ b).
      destruct (sub +:+ b) eqn:E; cbn [PyStr.contains]; rewrite <-?E, prefix_append; done.
    + rewrite append_cons. cbn [PyStr.contains]. rewrite IH. by destruct (String.prefix _ _).
Qed.

End StringFacts.

(** ** Identifier normalisation *)

Section Replace.

Variables (c : ascii) (r new : string).
Hypothesis r_free : mentions c r = false.

Let old := String c r.

(** A pattern that does not mention [c] and matches at the head of
    [x +:+ b] matches inside [x] already, when [b] opens with [c]. *)
Lemma prefix_before_opening (p x b : string) :
  mentions c p = false → opens_with c b →
  String.prefix p (x +:+ b) = true → String.prefix p x = true.
Proof.
  revert x. induction p as [|d p IH]; intros x Hp Hb H.
  - by destruct x.
  - cbn [mentions] in Hp. apply orb_false_iff in Hp as [Hd Hp].
    destruct x as [|e x].
    + change ("" +:+ b) with b in H.
      destruct Hb as [->|[b' ->]]; [done|].
      simpl in H. destruct (ascii_dec d c) as [->|]; [|done].
      by rewrite Ascii.eqb_refl in Hd.
    + rewrite append_cons in H. simpl in *.
      destruct (ascii_dec d e); [|done]. by apply (IH x).
Qed.

(** A stretch without the pattern is copied as it is. *)
Lemma replace_go_keep (a b : string) :
  PyStr.contains old a = false → opens_with c b →
  PyStr.replace_go old new 0 (a +:+ b) = a +:+ PyStr.replace_go old new 0 b.
Proof.
  intros Ha Hb. induction a as [|d a IH]; [done|].
  cbn [PyStr.contains] in Ha.
  destruct (String.prefix old (String d a)) eqn:Hpre; [done|].
  rewrite !append_cons. cbn [PyStr.replace_go].
  destruct (String.prefix old (String d (a +:+ b))) eqn:Hpre'.
  - exfalso. unfold old in Hpre, Hpre'. simpl in Hpre, Hpre'.
    destruct (ascii_dec c d); [|done].
    apply (prefix_before_opening r a b) in Hpre'; [congruence|done..].
  - by rewrite IH.
Qed.

Lemma prefix_weaken (p x b : string) :
  String.prefix p x = true → String.prefix p (x +:+ b) = true.
Proof.
  intros [t ->]%prefix_inv. rewrite append_assoc. apply prefix_append.
Qed.

Lemma prefix_length (p s : string) :
  String.prefix p s = true → String.length p ≤ String.length s.
Proof. intros [t ->]%prefix_inv. rewrite length_append. lia. Qed.

(** Whether the pattern matches at a position of [a] does not depend on
    what follows [a], when that opens with [c]. *)
Lemma prefix_old_local (d : ascii) (a b : string) :
  opens_with c b →
  String.prefix old (String d a +:+ b) = String.prefix old (String d a).
Proof.
  intros Hb. destruct (String.prefix old (String d a)) eqn:E.
  - by apply prefix_weaken.
  - apply not_true_is_false. intros E'. rewrite append_cons in E'.
    unfold old in E, E'. simpl in E, E'.
    destruct (ascii_dec c d); [|done].
    apply (prefix_before_opening r a b) in E'; [congruence|done..].
Qed.

(** Replacement works on [a] and on what follows it independently. *)
Lemma replace_go_append (a b : string) (k : nat) :
  opens_with c b → k ≤ String.length a →
  PyStr.replace_go old new k (a +:+ b)
  = PyStr.replace_go old new k a +:+ PyStr.replace_go old new 0 b.
Proof.
  intros Hb. revert k. induction a as [|d a IH]; intros k Hk.
  - cbn in Hk. by replace k with 0 by lia.
  - destruct k as [|k].
    + rewrite append_cons at 1. cbn [PyStr.replace_go].
      rewrite <-append_cons, (prefix_old_local d a b Hb).
      destruct (String.prefix old (String d a)) eqn:E.
      * apply prefix_length in E. unfold old in *. cbn [String.length] in *.
        rewrite IH by lia. by rewrite append_assoc.
      * by rewrite IH by (cbn; lia).
    + rewrite append_cons. cbn [PyStr.replace_go]. apply IH.
      cbn in Hk. lia.
Qed.

Lemma replace_append (a b : string) :
  opens_with c b →
  PyStr.replace old new (a +:+ b)
  = PyStr.replace old new a +:+ PyStr.replace old new b.
Proof.
  intros Hb. unfold PyStr.replace, old. fold old.
  apply replace_go_append; [done|lia].
Qed.

Lemma replace_go_drop (x s : string) :
  PyStr.replace_go old new (String.length x) (x +:+ s)
  = PyStr.replace_go old new 0 s.
Proof.
  induction x as [|d x IH]; [by destruct s|].
  by rewrite append_cons.
Qed.

(** An occurrence at the head is replaced. *)
Lemma replace_go_hit (s : string) :
  PyStr.replace_go old new 0 (old +:+ s) = new +:+ PyStr.replace_go old new 0 s.
Proof.
  pose proof (prefix_append old s) as Hpre.
  unfold old in *. rewrite append_cons in *. cbn [PyStr.replace_go].
  rewrite Hpre. f_equal.
  change (String.length (String c r) - 1) with (String.length r - 0).
  rewrite Nat.sub_0_r. apply replace_go_drop.
Qed.

Lemma replace_absent (a : string) :
  PyStr.contains old a = false → PyStr.replace old new a = a.
Proof.
  intros Ha. unfold PyStr.replace, old. fold old.
  rewrite <-(append_nil_r a) at 1.
  rewrite replace_go_keep; [|done|by left].
  by rewrite append_nil_r.
Qed.

End Replace.

Lemma all_dots_append (a b : string) :
  PyStr.all_dots (a +:+ b) = PyStr.all_dots a && PyStr.all_dots b.
Proof.
  induction a as [|c a IH]; [done|].
  rewrite append_cons. simpl. by rewrite IH, andb_assoc.
Qed.

Lemma before_last_dot_csv (x : string) :
  PyStr.before_last_dot (x +:+ ".csv") = Some x.
Proof.
  induction x as [|c x IH]; [done|].
  rewrite append_cons. cbn [PyStr.before_last_dot]. by rewrite IH.
Qed.

(** The root of [stem.csv] is [stem], for a stem that is not made of dots
    only. *)
Lemma splitext_root_csv (stem : string) :
  PyStr.all_dots stem = false → PyStr.splitext_root (stem +:+ ".csv") = stem.
Proof.
  intros H. unfold PyStr.splitext_root. by rewrite before_last_dot_csv, H.
Qed.

Lemma opens_with_literal (c : ascii) (b : string) : opens_with c (String c b).
Proof. right. by exists b. Qed.

(** Whatever the stem, the three variants get one and the same id: the
    stem with its own tokens removed. *)
Lemma clean_id_same_for_all_stems (foo : string) :
  clean_id (foo +:+ "_filtered.csv") = strip_tokens foo
  ∧ clean_id (foo +:+ "_trace.csv") = strip_tokens foo
  ∧ clean_id (foo +:+ "_clean.csv") = strip_tokens foo.
Proof.
  unfold clean_id.
  change "_filtered.csv" with ("_filtered" +:+ ".csv").
  change "_trace.csv" with ("_trace" +:+ ".csv").
  change "_clean.csv" with ("_clean" +:+ ".csv").
  rewrite <-!append_assoc.
  rewrite !splitext_root_csv by (by rewrite all_dots_append, andb_false_r).
  unfold strip_tokens. split_and!.
  - rewrite (replace_append "_" "filtered" "") by (done || apply opens_with_literal).
    change (PyStr.replace "_filtered" "" "_filtered") with "".
    by rewrite append_nil_r.
  - rewrite (replace_append "_" "filtered" "") by (done || apply opens_with_literal).
    change (PyStr.replace "_filtered" "" "_trace") with "_trace".
    rewrite (replace_append "_" "trace" "") by (done || apply opens_with_literal).
    change (PyStr.replace "_trace" "" "_trace") with "".
    by rewrite append_nil_r.
  - rewrite (replace_append "_" "filtered" "") by (done || apply opens_with_literal).
    change (PyStr.replace "_filtered" "" "_clean") with "_clean".
    rewrite (replace_append "_" "trace" "") by (done || apply opens_with_literal).
    change (PyStr.replace "_trace" "" "_clean") with "_clean".
    rewrite (replace_append "_" "clean" "") by (done || apply opens_with_literal).
    change (PyStr.replace "_clean" "" "_clean") with "".
    by rewrite append_nil_r.
Qed.

(** A stem without tokens is its own id. *)
Lemma strip_tokens_absent (foo : string) :
  PyStr.contains "_filtered" foo = false →
  PyStr.contains "_trace" foo = false →
  PyStr.contains "_clean" foo = false →
  strip_tokens foo = foo.
Proof.
  intros Hf Ht Hc. unfold strip_tokens.
  by rewrite (replace_absent "_" "filtered" ""), (replace_absent "_" "trace" ""),
    (replace_absent "_" "clean" "").
Qed.

(** The three file names of the specification. *)
Example clean_id_foo :
  clean_id "foo_filtered.csv" = "foo"
  ∧ clean_id "foo_trace.csv" = "foo"
  ∧ clean_id "foo_clean.csv" = "foo".
Proof. by vm_compute. Qed.

(** C5: identifier normalisation maps [foo_filtered.csv], [foo_trace.csv]
    and [foo_clean.csv] to the one id [foo], for every stem [foo] in which
    none of the three suffix tokens occurs. *)
Theorem clean_id_collapses_suffixes (foo : string) :
  PyStr.contains "_filtered" foo = false →
  PyStr.contains "_trace" foo = false →
  PyStr.contains "_clean" foo = false →
  clean_id (foo +:+ "_filtered.csv") = foo
  ∧ clean_id (foo +:+ "_trace.csv") = foo
  ∧ clean_id (foo +:+ "_clean.csv") = foo.
Proof.
  intros Hf Ht Hc.
  destruct (clean_id_same_for_all_stems foo) as (-> & -> & ->).
  by rewrite strip_tokens_absent.
Qed.

Lemma clean_id_collapses_suffixes_witness :
  clean_id ("foo" +:+ "_filtered.csv") = "foo"
  ∧ clean_id ("foo" +:+ "_trace.csv") = "foo"
  ∧ clean_id ("foo" +:+ "_clean.csv") = "foo".
Proof. apply (clean_id_collapses_suffixes "foo"); reflexivity. Defined.

Example clean_id_token_in_stem :
  clean_id "a_clean_b_filtered.csv" = "a_b" ∧ clean_id "a_clean_b_trace.csv" = "a_b"
  ∧ clean_id "a_clean_b_clean.csv" = "a_b".
Proof. by vm_compute. Qed.

(** ** Arithmetic on binary64 *)

(** IEEE multiplication is commutative: [arr * k] and [k * arr] agree. *)
Lemma float_mul_comm (x y : float) : (x * y)%float = (y * x)%float.
Proof.
  apply Prim2SF_inj. rewrite !mul_spec. unfold SF64mul, SpecFloat.SFmul.
  destruct (Prim2SF x) as [sx|sx| |sx mx ex], (Prim2SF y) as [sy|sy| |sy my ey];
    try reflexivity; rewrite (xorb_comm sx sy); try reflexivity.
  by rewrite (Pos.mul_comm mx my), (Z.add_comm ex ey).
Qed.

Example weights_are : W_POS = 0.2%float ∧ W_PHYSNET = 0.2%float ∧ W_EFFPHYS = 0.6%float.
Proof. done. Qed.

Example zero_times_weights :
  (0 * W_POS)%float = 0%float ∧ (0 * W_PHYSNET)%float = 0%float
  ∧ (0 * W_EFFPHYS)%float = 0%float.
Proof. done. Qed.

(** ** Signals and the weighted sum *)

Section Signals.

Context (w : World).

Lemma length_iloc_last_column (df : DataFrame) :
  length (iloc_last_column df) = length (df_rows df).
Proof. apply length_fmap. Qed.

Lemma length_signal_of (df : DataFrame) :
  length (signal_of w df) = length (df_rows df).
Proof.
  unfold signal_of, fillna_zero, to_numeric_coerce.
  rewrite !length_fmap. apply length_iloc_last_column.
Qed.

Lemma length_iloc_first_column (n : nat) (df : DataFrame) :
  n ≤ length (df_rows df) → length (iloc_first_column n df) = n.
Proof. intros. unfold iloc_first_column. rewrite length_take, length_fmap. lia. Qed.

(** The value a cell has in the signal. *)
Lemma signal_of_lookup (df : DataFrame) (i : nat) (c : cell) :
  iloc_last_column df !! i = Some c →
  signal_of w df !! i
  = Some (let x := default nan (numeric_of w (iloc_last_column df) c) in
          if is_nan x then 0%float else x).
Proof.
  intros H. unfold signal_of, fillna_zero, to_numeric_coerce.
  by rewrite !list_lookup_fmap, H.
Qed.

(** [iloc[:, -1]] is the signal column of the specification. *)
Lemma list_last_default (l : list cell) (d : cell) :
  List.last l d = default d (last l).
Proof.
  induction l as [|a l IH]; [done|].
  destruct l as [|b l]; [done|].
  rewrite last_cons_cons, <-IH. done.
Qed.

Lemma last_cell_agrees (row : cell * list cell) :
  List.last row.2 row.1 = Spec.last_cell row.
Proof.
  destruct row as [c rest]. unfold Spec.last_cell, Spec.cells. cbn [fst snd].
  destruct rest as [|d rest]; [done|].
  by rewrite last_cons_cons, list_last_default.
Qed.

Lemma iloc_last_column_is_signal_column (df : DataFrame) :
  iloc_last_column df = Spec.signal_column df.
Proof.
  unfold iloc_last_column, Spec.signal_column.
  apply list_fmap_ext. intros _ row _. apply last_cell_agrees.
Qed.

(** The last cell of a row is where its cells end. *)
Lemma last_cell_ends_row (row : cell * list cell) :
  ∃ init, Spec.cells row = init ++ [Spec.last_cell row].
Proof.
  destruct row as [c rest]. unfold Spec.last_cell, Spec.cells. cbn [fst snd].
  destruct (last (c :: rest)) as [d|] eqn:E; [|by apply last_None in E].
  apply last_Some in E as [init ->]. by exists init.
Qed.

(** The coerced column holds, row by row, the values of the specification. *)
Lemma signal_of_row (df : DataFrame) (i : nat) (row : cell * list cell) :
  df_rows df !! i = Some row →
  signal_of w df !! i = Some (Spec.signal_value w df row).
Proof.
  intros H.
  assert (Hc : iloc_last_column df !! i = Some (Spec.last_cell row)).
  { rewrite iloc_last_column_is_signal_column. unfold Spec.signal_column.
    by rewrite list_lookup_fmap, H. }
  rewrite (signal_of_lookup df i _ Hc), iloc_last_column_is_signal_column.
  unfold Spec.signal_value, Spec.value. cbn zeta.
  by destruct (numeric_of w _ _).
Qed.

Lemma length_weighted (a b c : list float) :
  length (weighted a b c) = Nat.min (Nat.min (length a) (length b)) (length c).
Proof.
  unfold weighted, add_arrays, scale. by rewrite !length_zip_with, !length_fmap.
Qed.

Lemma weighted_lookup (a b c : list float) (i : nat) (x y z : float) :
  a !! i = Some x → b !! i = Some y → c !! i = Some z →
  weighted a b c !! i = Some (x * W_POS + y * W_PHYSNET + z * W_EFFPHYS)%float.
Proof.
  intros Ha Hb Hc. unfold weighted, add_arrays, scale.
  by rewrite !lookup_zip_with, !list_lookup_fmap, Ha, Hb, Hc.
Qed.

(** The fused series of three frames: lines 65-82 on loaded data. *)
Lemma fused_lookup (s_pos s_phy s_eff : list float) (n i : nat) :
  n = Nat.min (Nat.min (length s_pos) (length s_phy)) (length s_eff) →
  i < n →
  ∃ x y z, s_pos !! i = Some x ∧ s_phy !! i = Some y ∧ s_eff !! i = Some z
    ∧ weighted (take n s_pos) (take n s_phy) (take n s_eff) !! i
      = Some (x * W_POS + y * W_PHYSNET + z * W_EFFPHYS)%float.
Proof.
  intros Hn Hi.
  destruct (lookup_lt_is_Some_2 s_pos i) as [x Hx]; [lia|].
  destruct (lookup_lt_is_Some_2 s_phy i) as [y Hy]; [lia|].
  destruct (lookup_lt_is_Some_2 s_eff i) as [z Hz]; [lia|].
  exists x, y, z. split_and!; [done..|].
  apply weighted_lookup; by rewrite lookup_take_lt.
Qed.

Lemma length_fused (s_pos s_phy s_eff : list float) (n : nat) :
  n = Nat.min (Nat.min (length s_pos) (length s_phy)) (length s_eff) →
  length (weighted (take n s_pos) (take n s_phy) (take n s_eff)) = n.
Proof. intros Hn. rewrite length_weighted, !length_take. lia. Qed.

End Signals.

(** ** Output paths *)

Lemma out_csv_path_inj (w : World) (v v' : string) :
  out_csv_path w v = out_csv_path w v' → v = v'.
Proof.
  unfold out_csv_path, path_join. intros H.
  do 2 apply append_inv_head in H. by apply append_inv_tail in H.
Qed.

Lemma out_png_path_inj (w : World) (v v' : string) :
  out_png_path w v = out_png_path w v' → v = v'.
Proof.
  unfold out_png_path, path_join. intros H.
  do 2 apply append_inv_head in H. by apply append_inv_tail in H.
Qed.

Lemma append_inv_same_length (x y a b : string) :
  String.length a = String.length b → x +:+ a = y +:+ b → x = y ∧ a = b.
Proof.
  intros Hlen. revert y. induction x as [|c x IH]; intros [|d y] H.
  - done.
  - apply (f_equal String.length) in H.
    rewrite !length_append in H. simpl in H. lia.
  - apply (f_equal String.length) in H.
    rewrite !length_append in H. simpl in H. lia.
  - rewrite !append_cons in H. injection H as -> H.
    destruct (IH _ H) as [-> ->]. done.
Qed.

(** The CSV of one id is never the graph of another (or of itself). *)
Lemma out_csv_png_distinct (w : World) (v v' : string) :
  out_csv_path w v ≠ out_png_path w v'.
Proof.
  unfold out_csv_path, out_png_path, path_join. intros H.
  do 2 apply append_inv_head in H.
  change "_weighted.csv" with ("_weighted." +:+ "csv") in H.
  change "_graph.png" with ("_graph." +:+ "png") in H.
  rewrite <-!append_assoc in H.
  by apply append_inv_same_length in H as [_ ?].
Qed.

(** ** One call of [process_fusion] *)

Section Loaded.

Context (w : World) (vid_id p_pos p_phy p_eff : string).
Context (d_pos d_phy d_eff : DataFrame).
Hypothesis load_pos : csv_at w p_pos = inr d_pos.
Hypothesis load_phy : csv_at w p_phy = inr d_phy.
Hypothesis load_eff : csv_at w p_eff = inr d_eff.

Let min_len : nat :=
  Nat.min (Nat.min (length (signal_of w d_pos)) (length (signal_of w d_phy)))
          (length (signal_of w d_eff)).
Let time_axis : list cell := iloc_first_column min_len d_pos.
Let weighted_signal : list float :=
  weighted (take min_len (signal_of w d_pos)) (take min_len (signal_of w d_phy))
           (take min_len (signal_of w d_eff)).
Let with_csv (st : State) : State :=
  {| console := console st;
     out_files := <[out_csv_path w vid_id := CsvTable time_axis weighted_signal]>
                    (out_files st) |}.
Let with_png (st : State) : State :=
  {| console := console st;
     out_files := <[out_png_path w vid_id := PngGraph time_axis weighted_signal]>
                    (out_files st) |}.

Let broken_csv (st : State) : State :=
  match to_csv_leaves w (out_csv_path w vid_id) with
  | Some k =>
      {| console := console st;
         out_files := <[out_csv_path w vid_id :=
                          CsvPartial (take k time_axis) (take k weighted_signal)]>
                        (out_files st) |}
  | None => st
  end.

(** The [try] block once the three files are read. *)
Lemma fusion_body_loaded (st : State) :
  fusion_body w vid_id p_pos p_phy p_eff st =
  if decide (min_len < 30) then (Returned false, st)
  else match to_csv_error w (out_csv_path w vid_id) with
       | Some e => (Raised e, broken_csv st)
       | None =>
           match savefig_error w (out_png_path w vid_id) with
           | Some e => (Raised e, with_csv st)
           | None => (Returned true, with_png (with_csv st))
           end
       end.
Proof.
  unfold fusion_body, mbind, M_bind, read_csv.
  rewrite load_pos, load_phy, load_eff. fold min_len.
  destruct (decide (min_len < 30)); [done|].
  fold time_axis weighted_signal. unfold to_csv, save_graph, broken_csv.
  destruct (to_csv_error _ _).
  { destruct (to_csv_leaves _ _); [|done].
    by unfold mbind, M_bind, write_file, raise. }
  unfold write_file at 1. cbn.
  by destruct (savefig_error _ _).
Qed.

Lemma process_fusion_short (st : State) :
  min_len < 30 →
  process_fusion w vid_id p_pos p_phy p_eff st = (Returned false, st).
Proof.
  intros. unfold process_fusion. rewrite fusion_body_loaded.
  by rewrite decide_True.
Qed.

Lemma process_fusion_csv_written (st : State) :
  30 ≤ min_len → to_csv_error w (out_csv_path w vid_id) = None →
  out_files (process_fusion w vid_id p_pos p_phy p_eff st).2
    !! out_csv_path w vid_id
  = Some (CsvTable time_axis weighted_signal).
Proof.
  intros Hlen Hcsv. unfold process_fusion. rewrite fusion_body_loaded.
  rewrite decide_False by lia. rewrite Hcsv.
  destruct (savefig_error _ _); cbn.
  - apply lookup_insert_eq.
  - rewrite lookup_insert_ne by (apply not_eq_sym, out_csv_png_distinct).
    apply lookup_insert_eq.
Qed.

Lemma process_fusion_graph_fails (st : State) (e : Exn) :
  30 ≤ min_len → to_csv_error w (out_csv_path w vid_id) = None →
  savefig_error w (out_png_path w vid_id) = Some e →
  process_fusion w vid_id p_pos p_phy p_eff st
  = (Returned false,
     {| console := console st ++ [LError vid_id e];
        out_files := <[out_csv_path w vid_id := CsvTable time_axis weighted_signal]>
                       (out_files st) |}).
Proof.
  intros Hlen Hcsv Hpng. unfold process_fusion. rewrite fusion_body_loaded.
  rewrite decide_False by lia. by rewrite Hcsv, Hpng.
Qed.

End Loaded.

(** ** The fused series ([process_fusion], lines 63-89) *)

(** C1: once the three files are read and their common length is at least
    30, the series written for the id holds, at every position [i] of the
    trimmed range, [0.2 * pos[i] + 0.2 * physnet[i] + 0.6 * effphys[i]],
    where [pos[i]], [physnet[i]] and [effphys[i]] are the numeric values of
    the cells that row [i] of the POS, PhysNet and EfficientPhys file has
    in its last column. *)
Theorem fused_value_is_weighted_sum
    (w : World) (vid_id p_pos p_phy p_eff : string)
    (d_pos d_phy d_eff : DataFrame) (st : State) :
  csv_at w p_pos = inr d_pos →
  csv_at w p_phy = inr d_phy →
  csv_at w p_eff = inr d_eff →
  30 ≤ Spec.common_length d_pos d_phy d_eff →
  to_csv_error w (out_csv_path w vid_id) = None →
  ∃ time_sec fused,
    out_files (process_fusion w vid_id p_pos p_phy p_eff st).2
      !! out_csv_path w vid_id = Some (CsvTable time_sec fused)
    ∧ ∀ i, i < Spec.common_length d_pos d_phy d_eff →
        ∃ row_pos row_phy row_eff,
          df_rows d_pos !! i = Some row_pos
          ∧ df_rows d_phy !! i = Some row_phy
          ∧ df_rows d_eff !! i = Some row_eff
          ∧ fused !! i
            = Some (0.2 * Spec.signal_value w d_pos row_pos
                    + 0.2 * Spec.signal_value w d_phy row_phy
                    + 0.6 * Spec.signal_value w d_eff row_eff)%float.
Proof.
  intros Hpos Hphy Heff Hlen Hcsv. unfold Spec.common_length in *.
  eexists _, _. split.
  - apply (process_fusion_csv_written w vid_id p_pos p_phy p_eff d_pos d_phy d_eff);
      [done..| |done].
    by rewrite !length_signal_of.
  - intros i Hi.
    destruct (lookup_lt_is_Some_2 (df_rows d_pos) i) as [row_pos Hr1]; [lia|].
    destruct (lookup_lt_is_Some_2 (df_rows d_phy) i) as [row_phy Hr2]; [lia|].
    destruct (lookup_lt_is_Some_2 (df_rows d_eff) i) as [row_eff Hr3]; [lia|].
    exists row_pos, row_phy, row_eff. split_and!; [done..|].
    rewrite (weighted_lookup _ _ _ i (Spec.signal_value w d_pos row_pos)
               (Spec.signal_value w d_phy row_phy) (Spec.signal_value w d_eff row_eff)).
    + unfold W_POS, W_PHYSNET, W_EFFPHYS.
      by rewrite (float_mul_comm (Spec.signal_value w d_pos row_pos)),
        (float_mul_comm (Spec.signal_value w d_phy row_phy)),
        (float_mul_comm (Spec.signal_value w d_eff row_eff)).
    + rewrite lookup_take_lt by (rewrite !length_signal_of; lia).
      by apply signal_of_row.
    + rewrite lookup_take_lt by (rewrite !length_signal_of; lia).
      by apply signal_of_row.
    + rewrite lookup_take_lt by (rewrite !length_signal_of; lia).
      by apply signal_of_row.
Qed.

(** C2: under the same conditions the series written for the id has
    exactly as many entries as the shortest of the three signals. *)
Theorem fused_length_is_min_length
    (w : World) (vid_id p_pos p_phy p_eff : string)
    (d_pos d_phy d_eff : DataFrame) (st : State) :
  csv_at w p_pos = inr d_pos →
  csv_at w p_phy = inr d_phy →
  csv_at w p_eff = inr d_eff →
  let min_len :=
    Nat.min (Nat.min (length (signal_of w d_pos)) (length (signal_of w d_phy)))
            (length (signal_of w d_eff)) in
  30 ≤ min_len →
  to_csv_error w (out_csv_path w vid_id) = None →
  ∃ time_sec fused,
    out_files (process_fusion w vid_id p_pos p_phy p_eff st).2
      !! out_csv_path w vid_id = Some (CsvTable time_sec fused)
    ∧ length fused = min_len
    ∧ length time_sec = min_len
    ∧ min_len = Nat.min (Nat.min (length (df_rows d_pos)) (length (df_rows d_phy)))
                        (length (df_rows d_eff)).
Proof.
  intros Hpos Hphy Heff min_len Hlen Hcsv.
  eexists _, _. split_and!.
  - by apply (process_fusion_csv_written w vid_id p_pos p_phy p_eff d_pos d_phy d_eff).
  - by apply length_fused.
  - apply length_iloc_first_column. fold min_len.
    pose proof (length_signal_of w d_pos). lia.
  - unfold min_len. by rewrite !length_signal_of.
Qed.

(** C3: when the common length of the three signals is below 30 the call
    answers [False] and leaves the state as it was: neither the CSV nor
    the graph of the id is written (and nothing is printed). *)
Theorem short_overlap_is_skipped
    (w : World) (vid_id p_pos p_phy p_eff : string)
    (d_pos d_phy d_eff : DataFrame) (st : State) :
  csv_at w p_pos = inr d_pos →
  csv_at w p_phy = inr d_phy →
  csv_at w p_eff = inr d_eff →
  Nat.min (Nat.min (length (signal_of w d_pos)) (length (signal_of w d_phy)))
          (length (signal_of w d_eff)) < 30 →
  process_fusion w vid_id p_pos p_phy p_eff st = (Returned false, st).
Proof. intros. by eapply process_fusion_short. Qed.


(** C10: the call is not atomic.  When the CSV has been written and
    rendering the graph raises, the call answers [False] and prints the
    error, yet the CSV of the id stays in the output folder; the graph
    does not appear. *)
Theorem csv_survives_graph_failure
    (w : World) (vid_id p_pos p_phy p_eff : string)
    (d_pos d_phy d_eff : DataFrame) (st : State) (e : Exn) :
  csv_at w p_pos = inr d_pos →
  csv_at w p_phy = inr d_phy →
  csv_at w p_eff = inr d_eff →
  30 ≤ Nat.min (Nat.min (length (signal_of w d_pos)) (length (signal_of w d_phy)))
               (length (signal_of w d_eff)) →
  to_csv_error w (out_csv_path w vid_id) = None →
  savefig_error w (out_png_path w vid_id) = Some e →
  ∃ st' time_sec fused,
    process_fusion w vid_id p_pos p_phy p_eff st = (Returned false, st')
    ∧ console st' = console st ++ [LError vid_id e]
    ∧ out_files st' !! out_csv_path w vid_id = Some (CsvTable time_sec fused)
    ∧ out_files st' !! out_png_path w vid_id = out_files st !! out_png_path w vid_id.
Proof.
  intros Hpos Hphy Heff Hlen Hcsv Hpng.
  eexists _, _, _. split_and!.
  - by apply (process_fusion_graph_fails w vid_id p_pos p_phy p_eff d_pos d_phy d_eff).
  - done.
  - apply lookup_insert_eq.
  - cbn. apply lookup_insert_ne, out_csv_png_distinct.
Qed.

Example sample_foo_row_1 :
  ∃ time_sec fused,
    out_files (process_fusion Sample.world "foo" (Sample.pos_path "foo_filtered.csv")
                 (Sample.phy_path "foo_trace.csv") (Sample.eff_path "foo_clean.csv")
                 Sample.start).2 !! out_csv_path Sample.world "foo"
    = Some (CsvTable time_sec fused)
    ∧ length fused = 30
    ∧ fused !! 0 = Some (-1.7)%float
    ∧ fused !! 1 = Some (-1.9)%float
    ∧ fused !! 2 = Some (-1.9)%float.
Proof. eexists _, _. vm_compute. split_and!; reflexivity. Qed.

Lemma fused_value_is_weighted_sum_witness :
  ∃ time_sec fused,
    out_files (process_fusion Sample.world "foo" (Sample.pos_path "foo_filtered.csv")
                 (Sample.phy_path "foo_trace.csv") (Sample.eff_path "foo_clean.csv")
                 Sample.start).2 !! out_csv_path Sample.world "foo"
    = Some (CsvTable time_sec fused)
    ∧ ∀ i, i < Spec.common_length Sample.pos_frame Sample.phy_frame Sample.eff_frame →
        ∃ row_pos row_phy row_eff,
          df_rows Sample.pos_frame !! i = Some row_pos
          ∧ df_rows Sample.phy_frame !! i = Some row_phy
          ∧ df_rows Sample.eff_frame !! i = Some row_eff
          ∧ fused !! i
            = Some (0.2 * Spec.signal_value Sample.world Sample.pos_frame row_pos
                    + 0.2 * Spec.signal_value Sample.world Sample.phy_frame row_phy
                    + 0.6 * Spec.signal_value Sample.world Sample.eff_frame row_eff)%float.
Proof.
  apply (fused_value_is_weighted_sum Sample.world "foo"
           (Sample.pos_path "foo_filtered.csv") (Sample.phy_path "foo_trace.csv")
           (Sample.eff_path "foo_clean.csv")
           Sample.pos_frame Sample.phy_frame Sample.eff_frame Sample.start);
    [reflexivity | reflexivity | reflexivity | vm_compute; lia | reflexivity].
Defined.

(** The values of the specification on the sample: a valid number, an
    invalid entry and a not-a-number of the POS file. *)
Example sample_signal_values :
  Spec.signal_value Sample.world Sample.pos_frame ("0.033", ["roi"; "1"]) = 1%float
  ∧ Spec.signal_value Sample.world Sample.pos_frame ("0.033", ["roi"; "n/a"]) = 0%float
  ∧ Spec.signal_value Sample.world Sample.pos_frame ("0.033", ["roi"; "nan"]) = 0%float
  ∧ Spec.common_length Sample.pos_frame Sample.phy_frame Sample.eff_frame = 30.
Proof. by vm_compute. Qed.

(** A cell is read within its column: [True] is 1 in a column of booleans
    and no number, hence 0, in a mixed column. *)
Example sample_boolean_columns :
  signal_of Sample.world Sample.bool_frame !! 0 = Some 1%float
  ∧ signal_of Sample.world Sample.mixed_frame !! 0 = Some 0%float
  ∧ signal_of Sample.world Sample.mixed_frame !! 1 = Some 1%float.
Proof. by vm_compute. Qed.

Lemma fused_length_is_min_length_witness :
  ∃ time_sec fused,
    out_files (process_fusion Sample.world "foo" (Sample.pos_path "foo_filtered.csv")
                 (Sample.phy_path "foo_trace.csv") (Sample.eff_path "foo_clean.csv")
                 Sample.start).2 !! out_csv_path Sample.world "foo"
    = Some (CsvTable time_sec fused)
    ∧ length fused = 30
    ∧ length time_sec = 30
    ∧ 30 = Nat.min (Nat.min (length (df_rows Sample.pos_frame))
                            (length (df_rows Sample.phy_frame)))
                   (length (df_rows Sample.eff_frame)).
Proof.
  apply (fused_length_is_min_length Sample.world "foo"
           (Sample.pos_path "foo_filtered.csv") (Sample.phy_path "foo_trace.csv")
           (Sample.eff_path "foo_clean.csv")
           Sample.pos_frame Sample.phy_frame Sample.eff_frame Sample.start);
    [reflexivity | reflexivity | reflexivity | vm_compute; lia | reflexivity].
Defined.

Lemma short_overlap_is_skipped_witness :
  process_fusion Sample.world "tiny" (Sample.pos_path "tiny.csv")
    (Sample.phy_path "tiny_trace.csv") (Sample.eff_path "tiny_clean.csv")
    Sample.start
  = (Returned false, Sample.start).
Proof.
  apply (short_overlap_is_skipped Sample.world "tiny" (Sample.pos_path "tiny.csv")
           (Sample.phy_path "tiny_trace.csv") (Sample.eff_path "tiny_clean.csv")
           Sample.pos_frame Sample.phy_frame Sample.tiny_frame Sample.start);
    [reflexivity | reflexivity | reflexivity | vm_compute; lia].
Defined.


(** In that row the POS cell is invalid and the two others are numbers. *)
Example sample_row_1_readings :
  numeric_of Sample.world (Spec.signal_column Sample.pos_frame) "n/a" = None
  ∧ numeric_of Sample.world (Spec.signal_column Sample.phy_frame) "2.5" = Some 2.5%float
  ∧ numeric_of Sample.world (Spec.signal_column Sample.eff_frame) "-4" = Some (-4)%float.
Proof. by vm_compute. Qed.

Lemma csv_survives_graph_failure_witness :
  ∃ st' time_sec fused,
    process_fusion Sample.world "dim" (Sample.pos_path "dim.csv")
      (Sample.phy_path "dim_filtered.csv") (Sample.eff_path "dim.csv") Sample.start
    = (Returned false, st')
    ∧ console st' = console Sample.start ++ [LError "dim" (Exception "MemoryError")]
    ∧ out_files st' !! out_csv_path Sample.world "dim" = Some (CsvTable time_sec fused)
    ∧ out_files st' !! out_png_path Sample.world "dim"
      = out_files Sample.start !! out_png_path Sample.world "dim".
Proof.
  apply (csv_survives_graph_failure Sample.world "dim" (Sample.pos_path "dim.csv")
           (Sample.phy_path "dim_filtered.csv") (Sample.eff_path "dim.csv")
           Sample.pos_frame Sample.phy_frame Sample.eff_frame Sample.start
           (Exception "MemoryError"));
    [reflexivity | reflexivity | reflexivity | vm_compute; lia | reflexivity
    | reflexivity].
Defined.

(** ** The file index ([map_files]) *)

Section Index.

Context (w : World).

Lemma map_files_run (root_folder : string) (st : State) :
  map_files w root_folder st
  = (Returned (index_of w root_folder), say (scan_lines w root_folder) st).
Proof.
  unfold map_files, index_of, scan_lines, say, mbind, M_bind, print, mret, M_ret.
  destruct (fs_roots w !! root_folder); cbn; by rewrite <-app_assoc.
Qed.

(** Where an entry of the index comes from. *)
Lemma index_file_origin (root : string) (files : list string)
    (acc : gmap string string * nat) (k p : string) :
  (foldl (index_file w root) acc files).1 !! k = Some p →
  acc.1 !! k = Some p
  ∨ ∃ file, file ∈ files ∧ indexed file = true
      ∧ k = clean_id file ∧ p = path_join w root file.
Proof.
  revert acc. induction files as [|f files IH]; intros acc H; [by left|].
  cbn [foldl] in H. apply IH in H as [H|(file & ? & ? & ? & ?)].
  - unfold index_file in H. destruct (indexed f) eqn:Hf; [|by left].
    cbn in H. destruct (decide (clean_id f = k)) as [<-|Hne].
    + rewrite lookup_insert_eq in H. injection H as <-.
      right. exists f. split_and!; [left|done..].
    + rewrite lookup_insert_ne in H by done. by left.
  - right. exists file. split_and!; [by right|done..].
Qed.

Lemma index_dir_origin (walk : list (string * list string * list string))
    (acc : gmap string string * nat) (k p : string) :
  (foldl (index_dir w) acc walk).1 !! k = Some p →
  acc.1 !! k = Some p
  ∨ ∃ dir dirs files file, (dir, dirs, files) ∈ walk ∧ file ∈ files
      ∧ indexed file = true ∧ k = clean_id file ∧ p = path_join w dir file.
Proof.
  revert acc. induction walk as [|[[dir dirs] files] walk IH]; intros acc H;
    [by left|].
  cbn [foldl] in H. apply IH in H as [H|(d & ds & fs & file & ? & ?)].
  - unfold index_dir in H. cbn in H.
    apply index_file_origin in H as [H|(file & ? & ?)]; [by left|].
    right. exists dir, dirs, files, file. split; [left|done].
  - right. exists d, ds, fs, file. split; [by right|done].
Qed.

(** Files that are not indexed leave the loop state as it is. *)
Lemma index_file_ignores (root : string) (files : list string)
    (acc : gmap string string * nat) :
  foldl (index_file w root) acc files
  = foldl (index_file w root) acc (filter (λ file, indexed file) files).
Proof.
  revert acc. induction files as [|f files IH]; intros acc; [done|].
  cbn [foldl]. destruct (indexed f) eqn:Hf.
  - rewrite filter_cons_True by (by apply Is_true_true). cbn [foldl]. apply IH.
  - rewrite filter_cons_False by (by apply Is_true_false).
    assert (index_file w root acc f = acc) as ->
      by (unfold index_file; by rewrite Hf).
    apply IH.
Qed.

Lemma index_walk_ignores (walk : list (string * list string * list string)) :
  index_walk w walk = index_walk w (keep_indexed <$> walk).
Proof.
  unfold index_walk. generalize (∅ : gmap string string, 0).
  induction walk as [|entry walk IH]; intros acc; [done|].
  cbn [foldl fmap list_fmap]. rewrite IH. f_equal.
  unfold index_dir, keep_indexed. cbn. apply index_file_ignores.
Qed.

(** Entries stay, and every indexed file leaves one under its id. *)
Lemma index_file_keeps (root : string) (files : list string)
    (acc : gmap string string * nat) (k : string) :
  is_Some (acc.1 !! k) →
  is_Some ((foldl (index_file w root) acc files).1 !! k).
Proof.
  revert acc. induction files as [|f files IH]; intros acc H; [done|].
  cbn [foldl]. apply IH. unfold index_file.
  destruct (indexed f); [|done]. cbn.
  rewrite lookup_insert. by case_decide.
Qed.

Lemma index_file_covers (root : string) (files : list string)
    (acc : gmap string string * nat) (file : string) :
  file ∈ files → indexed file = true →
  is_Some ((foldl (index_file w root) acc files).1 !! clean_id file).
Proof.
  revert acc. induction files as [|f files IH]; intros acc Hin Hi;
    [by inversion Hin|].
  cbn [foldl]. apply elem_of_cons in Hin as [<-|Hin]; [|by apply IH].
  apply index_file_keeps. unfold index_file. rewrite Hi. cbn.
  by rewrite lookup_insert_eq.
Qed.

Lemma index_dir_keeps (walk : list (string * list string * list string))
    (acc : gmap string string * nat) (k : string) :
  is_Some (acc.1 !! k) → is_Some ((foldl (index_dir w) acc walk).1 !! k).
Proof.
  revert acc. induction walk as [|entry walk IH]; intros acc H; [done|].
  cbn [foldl]. apply IH. by apply index_file_keeps.
Qed.

Lemma index_dir_covers (walk : list (string * list string * list string))
    (acc : gmap string string * nat) (dir : string) (dirs files : list string)
    (file : string) :
  (dir, dirs, files) ∈ walk → file ∈ files → indexed file = true →
  is_Some ((foldl (index_dir w) acc walk).1 !! clean_id file).
Proof.
  revert acc. induction walk as [|entry walk IH]; intros acc Hin Hf Hi;
    [by inversion Hin|].
  cbn [foldl]. apply elem_of_cons in Hin as [<-|Hin]; [|by apply IH].
  apply index_dir_keeps. unfold index_dir. cbn. by apply index_file_covers.
Qed.

Lemma index_of_covers (root : string) (t : fs_tree) (dir : string)
    (dirs files : list string) (file : string) :
  fs_roots w !! root = Some t →
  (dir, dirs, files) ∈ os_walk w root t → file ∈ files → indexed file = true →
  clean_id file ∈ dom (index_of w root).
Proof.
  intros Ht Hin Hf Hi. apply elem_of_dom. unfold index_of. rewrite Ht.
  by eapply index_dir_covers.
Qed.

End Index.

(** A substring free of [c] cannot straddle a boundary that opens with
    [c]. *)
Lemma contains_append (c : ascii) (p a b : string) :
  mentions c p = false → opens_with c b →
  PyStr.contains p (a +:+ b) = PyStr.contains p a || PyStr.contains p b.
Proof.
  intros Hp Hb. induction a as [|d a IH].
  - change ("" +:+ b) with b. cbn [PyStr.contains].
    destruct (String.prefix p "") eqn:E; [|done].
    destruct p; [|done]. by destruct b.
  - rewrite append_cons. cbn [PyStr.contains]. rewrite IH.
    destruct (String.prefix p (String d (a +:+ b))) eqn:E.
    + rewrite <-append_cons in E.
      apply (prefix_before_opening c) in E; [|done..]. by rewrite E.
    + destruct (String.prefix p (String d a)) eqn:E'; [|done].
      apply (prefix_weaken p _ b) in E'. rewrite append_cons in E'. congruence.
  Qed.

(** The three variants of a recording are indexed. *)
Lemma variants_are_indexed (foo : string) :
  PyStr.contains "ensemble" foo = false →
  indexed (foo +:+ "_filtered.csv") = true
  ∧ indexed (foo +:+ "_trace.csv") = true
  ∧ indexed (foo +:+ "_clean.csv") = true.
Proof.
  intros H. unfold indexed.
  rewrite !(contains_append "_" "ensemble") by (done || apply opens_with_literal).
  rewrite H. cbn [orb].
  split_and!; (apply andb_true_iff; split; [|done]); apply endswith_spec.
  - exists (foo +:+ "_filtered"). by rewrite append_assoc.
  - exists (foo +:+ "_trace"). by rewrite append_assoc.
  - exists (foo +:+ "_clean"). by rewrite append_assoc.
Qed.

(** So one recording matches across the three sources: with
    [foo_filtered.csv] somewhere in the POS tree, [foo_trace.csv] in the
    PhysNet tree and [foo_clean.csv] in the EfficientPhys tree, [foo] is a
    common id. *)
Lemma suffix_variants_match (w : World) (foo : string)
    (t_pos t_phy t_eff : fs_tree)
    (e_pos e_phy e_eff : string * list string * list string) :
  PyStr.contains "_filtered" foo = false →
  PyStr.contains "_trace" foo = false →
  PyStr.contains "_clean" foo = false →
  PyStr.contains "ensemble" foo = false →
  fs_roots w !! PATH_POS = Some t_pos →
  fs_roots w !! PATH_PHYSNET = Some t_phy →
  fs_roots w !! PATH_EFFPHYS = Some t_eff →
  e_pos ∈ os_walk w PATH_POS t_pos → foo +:+ "_filtered.csv" ∈ e_pos.2 →
  e_phy ∈ os_walk w PATH_PHYSNET t_phy → foo +:+ "_trace.csv" ∈ e_phy.2 →
  e_eff ∈ os_walk w PATH_EFFPHYS t_eff → foo +:+ "_clean.csv" ∈ e_eff.2 →
  foo ∈ common_ids_of (index_of w PATH_POS) (index_of w PATH_PHYSNET)
          (index_of w PATH_EFFPHYS).
Proof.
  intros Hf Ht Hc He R1 R2 R3 W1 F1 W2 F2 W3 F3.
  destruct (clean_id_same_for_all_stems foo) as (I1 & I2 & I3).
  rewrite (strip_tokens_absent foo Hf Ht Hc) in I1, I2, I3.
  destruct (variants_are_indexed foo He) as (X1 & X2 & X3).
  destruct e_pos as [[d1 ds1] fs1], e_phy as [[d2 ds2] fs2], e_eff as [[d3 ds3] fs3].
  unfold common_ids_of. rewrite !elem_of_intersection. split_and!.
  - rewrite <-I1. by eapply index_of_covers.
  - rewrite <-I2. by eapply index_of_covers.
  - rewrite <-I3. by eapply index_of_covers.
Qed.

(** C8: for a root folder that does not exist, [map_files] reports it,
    raises nothing and returns the empty dictionary, and with an empty
    dictionary for any of the three sources there is no common id. *)
Theorem missing_folder_gives_empty_index
    (w : World) (root_folder : string) (st : State) :
  fs_roots w !! root_folder = None →
  map_files w root_folder st
  = (Returned ∅,
     {| console := console st ++ [LScanning root_folder; LFolderNotFound];
        out_files := out_files st |})
  ∧ ∀ m1 m2 : gmap string string,
      common_ids_of ∅ m1 m2 = ∅ ∧ common_ids_of m1 ∅ m2 = ∅
      ∧ common_ids_of m1 m2 ∅ = ∅.
Proof.
  intros H. split.
  - rewrite map_files_run. unfold index_of, scan_lines, say. by rewrite H.
  - intros m1 m2. unfold common_ids_of. rewrite dom_empty_L.
    split_and!; apply set_eq; intros x;
      rewrite !elem_of_intersection, elem_of_empty; tauto.
Qed.

(** C9: every entry of the index built for a source folder comes from a
    file of the tree whose name ends in [.csv] and does not contain
    [ensemble]; all other files are ignored: the index is the one of the
    tree without them. *)
Theorem index_holds_only_csv_without_ensemble
    (w : World) (root_folder : string) (st : State) :
  ∃ file_map st',
    map_files w root_folder st = (Returned file_map, st')
    ∧ (∀ vid_id path, file_map !! vid_id = Some path →
         ∃ t dir dirs files file,
           fs_roots w !! root_folder = Some t
           ∧ (dir, dirs, files) ∈ os_walk w root_folder t
           ∧ file ∈ files
           ∧ (∃ stem, file = stem +:+ ".csv")
           ∧ (¬ ∃ a b, file = a +:+ "ensemble" +:+ b)
           ∧ vid_id = clean_id file
           ∧ path = path_join w dir file)
    ∧ (∀ t, fs_roots w !! root_folder = Some t →
         file_map = (index_walk w (keep_indexed <$> os_walk w root_folder t)).1).
Proof.
  eexists _, _. split; [apply map_files_run|]. unfold index_of. split.
  - intros vid_id path H. destruct (fs_roots w !! root_folder) as [t|]; [|done].
    apply index_dir_origin in H as [H|(dir & dirs & files & file & ? & ? & Hi & ? & ?)];
      [done|].
    unfold indexed in Hi. apply andb_true_iff in Hi as [Hcsv Hens].
    exists t, dir, dirs, files, file. split_and!; [done..| | |done|done].
    + by apply endswith_spec.
    + intros Hsub%contains_spec. by rewrite Hsub in Hens.
  - intros t ->. by rewrite <-index_walk_ignores.
Qed.

Lemma missing_folder_gives_empty_index_witness :
  map_files Sample.world "D:\nowhere" Sample.start
  = (Returned ∅,
     {| console := console Sample.start ++ [LScanning "D:\nowhere"; LFolderNotFound];
        out_files := out_files Sample.start |})
  ∧ ∀ m1 m2 : gmap string string,
      common_ids_of ∅ m1 m2 = ∅ ∧ common_ids_of m1 ∅ m2 = ∅
      ∧ common_ids_of m1 m2 ∅ = ∅.
Proof.
  apply (missing_folder_gives_empty_index Sample.world "D:\nowhere" Sample.start).
  vm_compute. reflexivity.
Defined.

(** ** The batch loop ([main], lines 126-143) *)

Section Batch.

Context (w : World).

(** The [try] block ends the same way from every state, prints nothing
    and writes at most the two files of its id. *)
Lemma fusion_body_shape (vid_id p_pos p_phy p_eff : string) (st : State) :
  ∃ files,
    fusion_body w vid_id p_pos p_phy p_eff st
    = (fusion_outcome w vid_id p_pos p_phy p_eff,
       {| console := console st; out_files := files |})
    ∧ ∀ path, foreign_to w vid_id path → files !! path = out_files st !! path.
Proof.
  unfold fusion_outcome, fusion_body, mbind, M_bind, read_csv, foreign_to.
  destruct st as [con files].
  destruct (csv_at w p_pos) as [?|d_pos]; [by eexists|].
  destruct (csv_at w p_phy) as [?|d_phy]; [by eexists|].
  destruct (csv_at w p_eff) as [?|d_eff]; [by eexists|].
  cbn. case_decide; [by eexists|].
  unfold to_csv, save_graph, raise, write_file.
  destruct (to_csv_error _ _).
  { destruct (to_csv_leaves _ _); cbn; eexists; (split; [done|]);
      intros path [? ?]; by rewrite ?lookup_insert_ne. }
  cbn.
  destruct (savefig_error _ _); cbn; eexists; (split; [done|]);
    intros path [? ?]; by rewrite !lookup_insert_ne.
Qed.

(** [process_fusion] never raises; an exception of the
    [try] block becomes the answer [False] and one printed error. *)
Lemma process_fusion_shape (vid_id p_pos p_phy p_eff : string) (st : State) :
  ∃ files,
    process_fusion w vid_id p_pos p_phy p_eff st
    = (Returned match fusion_outcome w vid_id p_pos p_phy p_eff with
                | Returned b => b
                | Raised _ => false
                end,
       {| console := console st ++
                     match fusion_outcome w vid_id p_pos p_phy p_eff with
                     | Returned _ => []
                     | Raised e => [LError vid_id e]
                     end;
          out_files := files |})
    ∧ ∀ path, foreign_to w vid_id path → files !! path = out_files st !! path.
Proof.
  unfold process_fusion.
  destruct (fusion_body_shape vid_id p_pos p_phy p_eff st) as (files & -> & Hfiles).
  exists files. split; [|done].
  destruct (fusion_outcome _ _ _ _ _); cbn; [by rewrite app_nil_r|done].
Qed.

Context (map_pos map_phy map_eff : gmap string string) (n : nat).

(** One turn of the loop for an id that has its three paths. *)
Lemma fuse_loop_step (vid_id : string) (rest : list string) (i count : nat)
    (st : State) (p_pos p_phy p_eff : string) :
  map_pos !! vid_id = Some p_pos →
  map_phy !! vid_id = Some p_phy →
  map_eff !! vid_id = Some p_eff →
  fuse_loop w map_pos map_phy map_eff n i (vid_id :: rest) count st
  = match process_fusion w vid_id p_pos p_phy p_eff
            (say [LFusing (i + 1) n vid_id] st) with
    | (Returned true, st') =>
        fuse_loop w map_pos map_phy map_eff n (S i) rest (count + 1)
          (say [LDone] st')
    | (Returned false, st') =>
        fuse_loop w map_pos map_phy map_eff n (S i) rest count
          (say [LFailed] st')
    | (Raised e, st') => (Raised e, st')
    end.
Proof.
  intros E1 E2 E3. cbn [fuse_loop].
  unfold dict_get. rewrite E1, E2, E3.
  unfold mbind, M_bind, mret, M_ret, print, say. cbn.
  by destruct (process_fusion _ _ _ _ _ _) as [[[]|] ?].
Qed.

(** A turn for an id that lacks a path ends the loop with [KeyError]. *)
Lemma fuse_loop_key_error (vid_id : string) (rest : list string) (i count : nat)
    (st : State) :
  ¬ (is_Some (map_pos !! vid_id) ∧ is_Some (map_phy !! vid_id)
     ∧ is_Some (map_eff !! vid_id)) →
  ∃ e, fuse_loop w map_pos map_phy map_eff n i (vid_id :: rest) count st
       = (Raised e, say [LFusing (i + 1) n vid_id] st)
  ∧ loop_lines w map_pos map_phy map_eff n i (vid_id :: rest)
    = [LFusing (i + 1) n vid_id].
Proof.
  intros Hno. cbn [fuse_loop loop_lines]. unfold dict_get.
  destruct (map_pos !! vid_id) as [p_pos|];
    [|eexists; split; reflexivity].
  destruct (map_phy !! vid_id) as [p_phy|];
    [|eexists; split; reflexivity].
  destruct (map_eff !! vid_id) as [p_eff|];
    [|eexists; split; reflexivity].
  destruct Hno. by eauto.
Qed.

(** The loop: what it prints, which files it leaves alone, and that it
    runs to its end when every id has its three paths. *)
Lemma fuse_loop_shape (ids : list string) (i count : nat) (st : State) :
  ∃ r files,
    fuse_loop w map_pos map_phy map_eff n i ids count st
    = (r, {| console := console st ++ loop_lines w map_pos map_phy map_eff n i ids;
             out_files := files |})
    ∧ (∀ path, (∀ v, v ∈ ids → foreign_to w v path) →
         files !! path = out_files st !! path)
    ∧ (all_mapped map_pos map_phy map_eff ids → ∃ c, r = Returned c).
Proof.
  revert i count st. induction ids as [|vid_id rest IH]; intros i count st.
  - exists (Returned count), (out_files st). cbn. rewrite app_nil_r.
    destruct st. by eauto.
  - destruct (decide (is_Some (map_pos !! vid_id) ∧ is_Some (map_phy !! vid_id)
                      ∧ is_Some (map_eff !! vid_id)))
      as [([p_pos E1] & [p_phy E2] & [p_eff E3])|Hno].
    + rewrite (fuse_loop_step _ _ _ _ _ _ _ _ E1 E2 E3).
      cbn [loop_lines]. rewrite E1, E2, E3.
      destruct (process_fusion_shape vid_id p_pos p_phy p_eff
                  (say [LFusing (i + 1) n vid_id] st)) as (files1 & -> & Hfiles1).
      cbn [say console out_files] in *.
      destruct (fusion_outcome w vid_id p_pos p_phy p_eff) as [[]|e];
        cbn [verdict_lines].
      all: match goal with |- context [fuse_loop _ _ _ _ _ _ _ ?c ?s] =>
             destruct (IH (S i) c s) as (r & files & -> & Hfiles & Hret) end.
      all: exists r, files; cbn [say console out_files] in *.
      all: split_and!;
        [ by rewrite <-!app_assoc
        | intros path Hpath; rewrite Hfiles;
          [apply Hfiles1, Hpath; left | intros v Hv; apply Hpath; by right]
        | intros Hall; apply Hret; intros v Hv; apply Hall; by right ].
    + destruct (fuse_loop_key_error vid_id rest i count st Hno) as (e & -> & ->).
      exists (Raised e), (out_files st). split_and!; [done|done|].
      intros Hall. destruct Hno. apply Hall. left.
Qed.

Lemma loop_lines_fusing (ids : list string) (i k m : nat) (v : string) :
  LFusing k m v ∈ loop_lines w map_pos map_phy map_eff n i ids → v ∈ ids.
Proof.
  revert i. induction ids as [|vid_id rest IH]; intros i H; [by inversion H|].
  cbn [loop_lines] in H. apply elem_of_cons in H as [[= _ _ ->]|H]; [left|].
  destruct (map_pos !! vid_id), (map_phy !! vid_id), (map_eff !! vid_id);
    try by inversion H.
  apply elem_of_app in H as [H|H]; [|right; by eapply IH].
  destruct (fusion_outcome _ _ _ _ _) as [[]|]; cbn in H;
    repeat (apply elem_of_cons in H as [?|H]; [done|]); by inversion H.
Qed.

Lemma loop_lines_all (ids : list string) (i : nat) (v : string) :
  all_mapped map_pos map_phy map_eff ids → v ∈ ids →
  ∃ k, LFusing k n v ∈ loop_lines w map_pos map_phy map_eff n i ids.
Proof.
  revert i. induction ids as [|vid_id rest IH]; intros i Hall Hv; [by inversion Hv|].
  cbn [loop_lines]. apply elem_of_cons in Hv as [->|Hv]; [eexists; left|].
  destruct (Hall vid_id) as ([? ->] & [? ->] & [? ->]); [left|].
  destruct (IH (S i)) as [k Hk]; [intros u Hu; apply Hall; by right|done|].
  exists k. right. apply elem_of_app. by right.
Qed.

Lemma loop_lines_app (ids1 ids2 : list string) (i : nat) :
  all_mapped map_pos map_phy map_eff ids1 →
  loop_lines w map_pos map_phy map_eff n i (ids1 ++ ids2)
  = loop_lines w map_pos map_phy map_eff n i ids1
    ++ loop_lines w map_pos map_phy map_eff n (i + length ids1) ids2.
Proof.
  revert i. induction ids1 as [|v ids1 IH]; intros i Hall.
  - cbn. by rewrite Nat.add_0_r.
  - cbn [app loop_lines length].
    destruct (Hall v) as ([? ->] & [? ->] & [? ->]); [left|].
    rewrite IH by (intros u Hu; apply Hall; by right).
    rewrite <-app_assoc. do 4 f_equal. lia.
Qed.

Lemma announcements_app (l1 l2 : list line) :
  announcements (l1 ++ l2) = announcements l1 ++ announcements l2.
Proof. apply omap_app. Qed.

Lemma announcements_verdict (vid_id : string) (o : outcome bool) :
  announcements (verdict_lines vid_id o) = [].
Proof. by destruct o as [[]|]. Qed.

Lemma announcements_scan (root : string) : announcements (scan_lines w root) = [].
Proof. unfold scan_lines. by destruct (fs_roots w !! root). Qed.

(** The loop announces its ids one by one, counting from [i + 1]. *)
Lemma announcements_loop (ids : list string) (i : nat) :
  all_mapped map_pos map_phy map_eff ids →
  announcements (loop_lines w map_pos map_phy map_eff n i ids)
  = imap (λ k v, (i + k + 1, n, v)) ids.
Proof.
  revert i. induction ids as [|v ids IH]; intros i Hall; [done|].
  cbn [loop_lines]. destruct (Hall v) as ([? ->] & [? ->] & [? ->]); [left|].
  change (announcements (LFusing (i + 1) n v :: ?l))
    with ((i + 1, n, v) :: announcements l).
  rewrite announcements_app, announcements_verdict,
    IH by (intros u Hu; apply Hall; by right).
  cbn [app imap]. f_equal; [do 2 f_equal; lia|].
  apply imap_ext. intros k u _. cbn. do 2 f_equal. lia.
Qed.

End Batch.

(** ** The whole run *)

(** Brings nested appends of printed lines to one right-nested list. *)
Ltac flatten_apps :=
  repeat (progress (rewrite <-?app_assoc; cbn [app])).

Lemma scan_lines_no_fusing (w : World) (root : string) (k m : nat) (v : string) :
  LFusing k m v ∉ scan_lines w root.
Proof.
  unfold scan_lines. intros H.
  apply elem_of_cons in H as [?|H]; [done|].
  destruct (fs_roots w !! root);
    (apply elem_of_cons in H as [?|H]; [done|by inversion H]).
Qed.

(** The iteration of a set visits its elements, each once. *)
Lemma set_iteration_perm (w : World) (ids : gset string) :
  set_iteration w ids ≡ₚ elements ids.
Proof. apply merge_sort_Permutation. Qed.

Lemma elem_of_set_iteration (w : World) (ids : gset string) (v : string) :
  v ∈ set_iteration w ids ↔ v ∈ ids.
Proof. rewrite set_iteration_perm. apply elem_of_elements. Qed.

Lemma NoDup_set_iteration (w : World) (ids : gset string) :
  NoDup (set_iteration w ids).
Proof. rewrite set_iteration_perm. apply NoDup_elements. Qed.

Lemma length_set_iteration (w : World) (ids : gset string) :
  length (set_iteration w ids) = size ids.
Proof. apply Permutation_length, set_iteration_perm. Qed.

Lemma set_iteration_empty (w : World) : set_iteration w ∅ = [].
Proof.
  apply Permutation_nil_r. rewrite set_iteration_perm. by rewrite elements_empty.
Qed.

Lemma common_ids_mapped (w : World) (map_pos map_phy map_eff : gmap string string) :
  all_mapped map_pos map_phy map_eff
    (set_iteration w (common_ids_of map_pos map_phy map_eff)).
Proof.
  intros v Hv%elem_of_set_iteration. unfold common_ids_of in Hv.
  rewrite !elem_of_intersection, !elem_of_dom in Hv.
  by destruct Hv as [[? ?] ?].
Qed.

Section Run.

Context (w : World).

Let map_pos := index_of w PATH_POS.
Let map_phy := index_of w PATH_PHYSNET.
Let map_eff := index_of w PATH_EFFPHYS.
Let common_ids := common_ids_of map_pos map_phy map_eff.
Let scans : list line :=
  scan_lines w PATH_POS ++ scan_lines w PATH_PHYSNET ++ scan_lines w PATH_EFFPHYS.

Lemma main_makedirs_fails (st : State) (e : Exn) :
  makedirs_error w = Some e → main w st = (Raised e, say [LStart] st).
Proof.
  intros H. unfold main, makedirs, mbind, M_bind, print, raise, say.
  by rewrite H.
Qed.

(** What [main] prints and which files it leaves alone. *)
Lemma main_shape (st : State) :
  makedirs_error w = None →
  ∃ tail files,
    main w st
    = (Returned tt,
       {| console := console st ++ LStart :: scans ++ tail; out_files := files |})
    ∧ (common_ids = ∅ ∧ tail = [LNoMatch]
       ∨ common_ids ≠ ∅ ∧ ∃ count,
           tail = LMatching (size common_ids)
                  :: loop_lines w map_pos map_phy map_eff (size common_ids) 0
                       (set_iteration w common_ids)
                  ++ [LSummary count])
    ∧ (∀ path, (∀ v, v ∈ common_ids → foreign_to w v path) →
         files !! path = out_files st !! path).
Proof.
  intros Hmk. unfold main, makedirs. rewrite Hmk.
  unfold mbind at 1 2, M_bind at 1 2, print at 1, mret at 1, M_ret at 1.
  unfold mbind at 1, M_bind at 1. rewrite map_files_run.
  unfold mbind at 1, M_bind at 1. rewrite map_files_run.
  unfold mbind at 1, M_bind at 1. rewrite map_files_run.
  fold map_pos map_phy map_eff. fold common_ids.
  unfold say. cbn [console out_files].
  destruct (decide (common_ids = ∅)) as [Hempty|Hne].
  - exists [LNoMatch], (out_files st). unfold print. cbn [console out_files].
    split_and!; [|by left|done].
    do 2 f_equal. unfold scans. by flatten_apps.
  - unfold mbind at 1, M_bind at 1, print at 1. cbn [console out_files].
    unfold mbind at 1, M_bind at 1.
    match goal with |- context [fuse_loop _ _ _ _ ?n ?i ?ids ?c ?s] =>
      destruct (fuse_loop_shape w map_pos map_phy map_eff n ids i c s)
        as (r & files & -> & Hfiles & Hret) end.
    destruct Hret as [count ->]; [apply common_ids_mapped|].
    exists (LMatching (size common_ids)
            :: loop_lines w map_pos map_phy map_eff (size common_ids) 0
                 (set_iteration w common_ids) ++ [LSummary count]), files.
    unfold print. cbn [console out_files] in *. split_and!.
    + do 2 f_equal. unfold scans. by flatten_apps.
    + right. by eauto.
    + intros path Hpath. apply Hfiles. intros v Hv%elem_of_set_iteration. by apply Hpath.
Qed.

End Run.

(** The three dictionaries of a run are the indexes of the three folders. *)
Lemma map_files_returns (w : World) (root : string) (st st' : State)
    (m : gmap string string) :
  map_files w root st = (Returned m, st') → m = index_of w root.
Proof. rewrite map_files_run. by intros [= <- _]. Qed.

(** C4: an id that is missing from at least one of the three indexes is
    not a common id and is never handed to [process_fusion]: [main]
    announces no fusion for it and leaves its two output files as they
    were.  Every id for which a fusion is announced is in all three
    indexes. *)
Theorem partial_match_is_never_processed
    (w : World) (st s1 s2 s3 s1' s2' s3' : State)
    (map_pos map_phy map_eff : gmap string string) (vid_id : string) :
  map_files w PATH_POS s1 = (Returned map_pos, s1') →
  map_files w PATH_PHYSNET s2 = (Returned map_phy, s2') →
  map_files w PATH_EFFPHYS s3 = (Returned map_eff, s3') →
  (vid_id ∉ dom map_pos ∨ vid_id ∉ dom map_phy ∨ vid_id ∉ dom map_eff) →
  (vid_id ∉ common_ids_of map_pos map_phy map_eff)
  ∧ ∃ printed,
      console (main w st).2 = console st ++ printed
      ∧ (∀ i n, LFusing i n vid_id ∉ printed)
      ∧ (∀ i n v, LFusing i n v ∈ printed →
           v ∈ dom map_pos ∧ v ∈ dom map_phy ∧ v ∈ dom map_eff)
      ∧ out_files (main w st).2 !! out_csv_path w vid_id
        = out_files st !! out_csv_path w vid_id
      ∧ out_files (main w st).2 !! out_png_path w vid_id
        = out_files st !! out_png_path w vid_id.
Proof.
  intros ->%map_files_returns ->%map_files_returns ->%map_files_returns Hmiss.
  set (common := common_ids_of _ _ _).
  assert (Hcommon : ∀ v, v ∈ common →
            v ∈ dom (index_of w PATH_POS) ∧ v ∈ dom (index_of w PATH_PHYSNET)
            ∧ v ∈ dom (index_of w PATH_EFFPHYS)).
  { intros v. unfold common, common_ids_of. rewrite !elem_of_intersection.
    by intros [[? ?] ?]. }
  assert (Hnot : vid_id ∉ common).
  { intros (? & ? & ?)%Hcommon. by destruct Hmiss as [?|[?|?]]. }
  split; [done|].
  destruct (makedirs_error w) as [e|] eqn:Hmk.
  - rewrite (main_makedirs_fails w st e Hmk). exists [LStart]. cbn.
    split_and!; [done| |  |done|done].
    + intros i n H. apply elem_of_cons in H as [?|H]; [done|by inversion H].
    + intros i n v H. apply elem_of_cons in H as [?|H]; [done|by inversion H].
  - destruct (main_shape w st Hmk) as (tail & files & -> & Htail & Hfiles).
    fold common in Htail, Hfiles. cbn [snd console out_files].
    assert (Hfus : ∀ i n v,
              LFusing i n v
              ∈ LStart :: (scan_lines w PATH_POS ++ scan_lines w PATH_PHYSNET
                           ++ scan_lines w PATH_EFFPHYS) ++ tail → v ∈ common).
    { intros i n v H. apply elem_of_cons in H as [?|H]; [done|].
      rewrite !elem_of_app in H.
      destruct H as [[H|[H|H]]|H]; try by apply scan_lines_no_fusing in H.
      destruct Htail as [[_ ->]|[_ [count ->]]].
      - apply elem_of_cons in H as [?|H]; [done|by inversion H].
      - apply elem_of_cons in H as [?|H]; [done|].
        apply elem_of_app in H as [H|H].
        + eapply elem_of_set_iteration, loop_lines_fusing. exact H.
        + apply elem_of_cons in H as [?|H]; [done|by inversion H]. }
    eexists. split_and!; [done| | | |].
    + intros i n H. by apply Hfus in H.
    + intros i n v H. by apply Hcommon, (Hfus i n).
    + apply Hfiles. intros v Hv. split.
      * intros Heq%out_csv_path_inj. by subst.
      * apply out_csv_png_distinct.
    + apply Hfiles. intros v Hv. split.
      * apply not_eq_sym, out_csv_png_distinct.
      * intros Heq%out_png_path_inj. by subst.
Qed.

(** C7: when the [try] block of a common id raises, the exception does
    not leave [process_fusion]: [main] still ends normally; the error is
    printed right after the id's announcement and is followed by the
    failure report; the id is announced nowhere else (no second attempt);
    and the loop goes on: every other common id is announced, before or
    after, and the run makes as many announcements as there are common
    ids.  This holds in whatever order the run visits the ids. *)
Theorem failed_id_is_logged_and_skipped
    (w : World) (st s s1 s2 s3 s1' s2' s3' : State)
    (map_pos map_phy map_eff : gmap string string)
    (vid_id p_pos p_phy p_eff : string) (e : Exn) :
  makedirs_error w = None →
  map_files w PATH_POS s1 = (Returned map_pos, s1') →
  map_files w PATH_PHYSNET s2 = (Returned map_phy, s2') →
  map_files w PATH_EFFPHYS s3 = (Returned map_eff, s3') →
  map_pos !! vid_id = Some p_pos →
  map_phy !! vid_id = Some p_phy →
  map_eff !! vid_id = Some p_eff →
  (fusion_body w vid_id p_pos p_phy p_eff s).1 = Raised e →
  let common_ids := common_ids_of map_pos map_phy map_eff in
  let n := size common_ids in
  ∃ st' before after k,
    main w st = (Returned tt, st')
    ∧ console st'
      = console st ++ before
        ++ [LFusing k n vid_id; LError vid_id e; LFailed] ++ after
    ∧ (∀ i m, LFusing i m vid_id ∉ before)
    ∧ (∀ i m, LFusing i m vid_id ∉ after)
    ∧ (∀ v, v ∈ common_ids → v ≠ vid_id →
         (∃ i, LFusing i n v ∈ before) ∨ (∃ i, LFusing i n v ∈ after))
    ∧ k = length (announcements before) + 1
    ∧ length (announcements before) + 1 + length (announcements after) = n.
Proof.
  intros Hmk ->%map_files_returns ->%map_files_returns ->%map_files_returns
    E1 E2 E3 Hraise common_ids n.
  destruct (main_shape w st Hmk) as (tail & files & -> & Htail & _).
  fold common_ids in Htail. fold n in Htail.
  assert (Hin : vid_id ∈ set_iteration w common_ids).
  { apply elem_of_set_iteration. unfold common_ids, common_ids_of.
    rewrite !elem_of_intersection, !elem_of_dom. by eauto. }
  apply list_elem_of_split in Hin as (ids1 & ids2 & Hids).
  pose proof (common_ids_mapped w (index_of w PATH_POS) (index_of w PATH_PHYSNET)
                (index_of w PATH_EFFPHYS)) as Hall.
  pose proof (NoDup_set_iteration w common_ids) as Hnd.
  pose proof (length_set_iteration w common_ids) as Hlen.
  fold common_ids in Hall. rewrite Hids in Hall, Hnd, Hlen.
  apply NoDup_app in Hnd as (_ & Hnot1 & [Hnot2 _]%NoDup_cons).
  assert (Hall1 : all_mapped (index_of w PATH_POS) (index_of w PATH_PHYSNET)
                    (index_of w PATH_EFFPHYS) ids1).
  { intros v Hv. apply Hall, elem_of_app. by left. }
  assert (Hall2 : all_mapped (index_of w PATH_POS) (index_of w PATH_PHYSNET)
                    (index_of w PATH_EFFPHYS) ids2).
  { intros v Hv. apply Hall, elem_of_app. right. by right. }
  assert (Ho : fusion_outcome w vid_id p_pos p_phy p_eff = Raised e).
  { destruct (fusion_body_shape w vid_id p_pos p_phy p_eff s) as (? & Hb & _).
    by rewrite Hb in Hraise. }
  destruct Htail as [[Hempty _]|[_ [count ->]]].
  { rewrite Hempty, set_iteration_empty in Hids. by destruct ids1. }
  rewrite Hids, loop_lines_app by done.
  cbn [loop_lines]. rewrite E1, E2, E3, Ho. cbn [verdict_lines].
  set (before := LStart :: (scan_lines w PATH_POS ++ scan_lines w PATH_PHYSNET
                              ++ scan_lines w PATH_EFFPHYS)
                   ++ LMatching n
                      :: loop_lines w (index_of w PATH_POS) (index_of w PATH_PHYSNET)
                           (index_of w PATH_EFFPHYS) n 0 ids1).
  set (after := loop_lines w (index_of w PATH_POS) (index_of w PATH_PHYSNET)
                  (index_of w PATH_EFFPHYS) n (S (0 + length ids1)) ids2
                ++ [LSummary count]).
  assert (Hbefore : length (announcements before) = length ids1).
  { unfold before. change (announcements (LStart :: ?l)) with (announcements l).
    rewrite !announcements_app, !announcements_scan. cbn [app].
    change (announcements (LMatching ?m :: ?l)) with (announcements l).
    by rewrite announcements_loop, length_imap. }
  assert (Hafter : length (announcements after) = length ids2).
  { unfold after. rewrite announcements_app, announcements_loop by done.
    cbn. by rewrite app_nil_r, length_imap. }
  exists {| console := console st ++ before
                       ++ [LFusing (length ids1 + 1) n vid_id; LError vid_id e; LFailed]
                       ++ after;
            out_files := files |}, before, after, (length ids1 + 1).
  split_and!.
  - do 2 f_equal. unfold before, after. by flatten_apps.
  - done.
  - intros i m H. apply elem_of_cons in H as [?|H]; [done|].
    rewrite !elem_of_app in H.
    destruct H as [[H|[H|H]]|H]; try by apply scan_lines_no_fusing in H.
    apply elem_of_cons in H as [?|H]; [done|].
    apply loop_lines_fusing in H. apply (Hnot1 vid_id H). left.
  - intros i m H. apply elem_of_app in H as [H|H].
    + by apply loop_lines_fusing in H.
    + apply elem_of_cons in H as [?|H]; [done|by inversion H].
  - intros v Hv Hne.
    apply (elem_of_set_iteration w) in Hv. rewrite Hids in Hv.
    apply elem_of_app in Hv as [Hv|Hv].
    + left.
      destruct (loop_lines_all w (index_of w PATH_POS) (index_of w PATH_PHYSNET)
                  (index_of w PATH_EFFPHYS) n ids1 0 v Hall1 Hv) as [k Hk].
      exists k. right. apply elem_of_app. right. by right.
    + apply elem_of_cons in Hv as [?|Hv]; [done|]. right.
      destruct (loop_lines_all w (index_of w PATH_POS) (index_of w PATH_PHYSNET)
                  (index_of w PATH_EFFPHYS) n ids2 (S (0 + length ids1)) v Hall2 Hv)
        as [k Hk].
      exists k. apply elem_of_app. by left.
  - by rewrite Hbefore.
  - rewrite Hbefore, Hafter. rewrite length_app in Hlen. cbn in Hlen. lia.
Qed.

(** ** Every order of a set is the order of some run *)

Lemma StronglySorted_elem_impl {A} (R R' : relation A) (l : list A) :
  StronglySorted R l →
  (∀ a b, a ∈ l → b ∈ l → R a b → R' a b) →
  StronglySorted R' l.
Proof.
  induction 1 as [|x l Hl IH Hx]; intros Himp; constructor.
  - apply IH. intros a b Ha Hb. apply Himp; by apply elem_of_cons; right.
  - apply Forall_forall. intros y Hy.
    apply Himp; [by left|by right|].
    by apply (proj1 (Forall_forall _ _) Hx).
Qed.

Lemma position_inj (l : list string) (a b : string) :
  a ∈ l → b ∈ l → position a l = position b l → a = b.
Proof.
  induction l as [|x l IH]; intros Ha Hb H; [by inversion Ha|].
  cbn [position] in H.
  destruct (decide (x = a)) as [Hxa|Hxa], (decide (x = b)) as [Hxb|Hxb];
    [congruence|done|done|].
  apply elem_of_cons in Ha as [?|Ha]; [done|].
  apply elem_of_cons in Hb as [?|Hb]; [done|].
  apply IH; [done|done|lia].
Qed.

Lemma position_sorted (l : list string) :
  NoDup l → StronglySorted (λ a b, position a l ≤ position b l) l.
Proof.
  induction l as [|x l IH]; intros Hnd; [constructor|].
  apply NoDup_cons in Hnd as [Hx Hnd]. constructor.
  - apply (StronglySorted_elem_impl _ _ _ (IH Hnd)).
    intros a b Ha Hb Hab. cbn [position].
    rewrite !decide_False by (intros ->; done). lia.
  - apply Forall_forall. intros y _. cbn [position].
    rewrite decide_True by done. lia.
Qed.

Section Orders.

Context (w : World).

#[local] Instance visited_before_trans : Transitive (visited_before w).
Proof. unfold visited_before. intros a b c. lia. Qed.

#[local] Instance visited_before_total : Total (visited_before w).
Proof. unfold visited_before. intros a b. lia. Qed.

(** Whatever order Python happens to visit a set in, the model has a
    world for it: with the rank of an id its place in that order,
    [set_iteration] is that order. *)
Lemma every_order_is_an_iteration (ids : gset string) (order : list string) :
  order ≡ₚ elements ids →
  (∀ v, v ∈ ids → set_rank w v = position v order) →
  set_iteration w ids = order.
Proof.
  intros Hperm Hrank. unfold set_iteration.
  assert (Hnd : NoDup order) by (rewrite Hperm; apply NoDup_elements).
  assert (Hin : ∀ v, v ∈ order → v ∈ ids).
  { intros v Hv. rewrite Hperm in Hv. by apply elem_of_elements in Hv. }
  apply (Sorted_unique_strong (visited_before w)).
  - intros a b Ha Hb Hab Hba. unfold visited_before in *.
    rewrite merge_sort_Permutation in Ha.
    apply elem_of_elements in Ha. apply Hin in Hb as Hb'.
    rewrite !Hrank in Hab, Hba by done.
    apply (position_inj order); [by rewrite Hperm, elem_of_elements|done|lia].
  - apply Sorted_merge_sort; apply _.
  - apply StronglySorted_Sorted.
    apply (StronglySorted_elem_impl _ _ _ (position_sorted order Hnd)).
    intros a b Ha Hb Hab. unfold visited_before.
    rewrite !Hrank by auto. done.
  - by rewrite merge_sort_Permutation.
Qed.

End Orders.

(** The sample run, in the order of its world: [bar] raises while it is
    read, [dim] cannot be plotted, [tiny] is too short, [foo] succeeds,
    [baz] is never tried. *)
Example sample_console :
  console (main Sample.world Sample.start).2
  = [LStart;
     LScanning PATH_POS; LFound 5;
     LScanning PATH_PHYSNET; LFound 5;
     LScanning PATH_EFFPHYS; LFound 4;
     LMatching 4;
     LFusing 1 4 "bar"; LError "bar" (Exception "ParserError"); LFailed;
     LFusing 2 4 "dim"; LError "dim" (Exception "MemoryError"); LFailed;
     LFusing 3 4 "tiny"; LFailed;
     LFusing 4 4 "foo"; LDone;
     LSummary 1].
Proof. vm_compute. reflexivity. Qed.

(** The run's order is not the one in which [elements] lists the set. *)
Example sample_iteration_order :
  set_iteration Sample.world
    (common_ids_of (index_of Sample.world PATH_POS)
       (index_of Sample.world PATH_PHYSNET) (index_of Sample.world PATH_EFFPHYS))
  = ["bar"; "dim"; "tiny"; "foo"]
  ∧ elements (common_ids_of (index_of Sample.world PATH_POS)
                (index_of Sample.world PATH_PHYSNET) (index_of Sample.world PATH_EFFPHYS))
    = ["foo"; "bar"; "tiny"; "dim"].
Proof. by vm_compute. Qed.

Lemma partial_match_is_never_processed_witness :
  ("baz" ∉ common_ids_of (index_of Sample.world PATH_POS)
             (index_of Sample.world PATH_PHYSNET) (index_of Sample.world PATH_EFFPHYS))
  ∧ ∃ printed,
      console (main Sample.world Sample.start).2 = console Sample.start ++ printed
      ∧ (∀ i n, LFusing i n "baz" ∉ printed)
      ∧ (∀ i n v, LFusing i n v ∈ printed →
           v ∈ dom (index_of Sample.world PATH_POS)
           ∧ v ∈ dom (index_of Sample.world PATH_PHYSNET)
           ∧ v ∈ dom (index_of Sample.world PATH_EFFPHYS))
      ∧ out_files (main Sample.world Sample.start).2 !! out_csv_path Sample.world "baz"
        = out_files Sample.start !! out_csv_path Sample.world "baz"
      ∧ out_files (main Sample.world Sample.start).2 !! out_png_path Sample.world "baz"
        = out_files Sample.start !! out_png_path Sample.world "baz".
Proof.
  apply (partial_match_is_never_processed Sample.world Sample.start
           Sample.start Sample.start Sample.start
           (map_files Sample.world PATH_POS Sample.start).2
           (map_files Sample.world PATH_PHYSNET Sample.start).2
           (map_files Sample.world PATH_EFFPHYS Sample.start).2);
    [vm_compute; reflexivity | vm_compute; reflexivity | vm_compute; reflexivity |].
  right. right. apply not_elem_of_dom. vm_compute. reflexivity.
Defined.

Lemma failed_id_is_logged_and_skipped_witness :
  let common_ids :=
    common_ids_of (index_of Sample.world PATH_POS) (index_of Sample.world PATH_PHYSNET)
      (index_of Sample.world PATH_EFFPHYS) in
  let n := size common_ids in
  ∃ st' before after k,
    main Sample.world Sample.start = (Returned tt, st')
    ∧ console st'
      = console Sample.start ++ before
        ++ [LFusing k n "dim"; LError "dim" (Exception "MemoryError"); LFailed]
        ++ after
    ∧ (∀ i m, LFusing i m "dim" ∉ before)
    ∧ (∀ i m, LFusing i m "dim" ∉ after)
    ∧ (∀ v, v ∈ common_ids → v ≠ "dim" →
         (∃ i, LFusing i n v ∈ before) ∨ (∃ i, LFusing i n v ∈ after))
    ∧ k = length (announcements before) + 1
    ∧ length (announcements before) + 1 + length (announcements after) = n.
Proof.
  apply (failed_id_is_logged_and_skipped Sample.world Sample.start Sample.start
           Sample.start Sample.start Sample.start
           (map_files Sample.world PATH_POS Sample.start).2
           (map_files Sample.world PATH_PHYSNET Sample.start).2
           (map_files Sample.world PATH_EFFPHYS Sample.start).2
           (index_of Sample.world PATH_POS) (index_of Sample.world PATH_PHYSNET)
           (index_of Sample.world PATH_EFFPHYS)
           "dim" (Sample.pos_path "batch2\dim.csv") (Sample.phy_path "dim_filtered.csv")
           (Sample.eff_path "dim.csv") (Exception "MemoryError"));
    vm_compute; reflexivity.
Defined.

(** * Further properties of the script *)

(** ** More on [map_files] (lines 25-51) *)

Section IndexMore.

Context (w : World).

Lemma walk_files_cons (entry : string * list string * list string)
    (walk : list (string * list string * list string)) :
  walk_files (entry :: walk) = entry.2 ++ walk_files walk.
Proof. reflexivity. Qed.

Lemma walk_files_app (walk1 walk2 : list (string * list string * list string)) :
  walk_files (walk1 ++ walk2) = walk_files walk1 ++ walk_files walk2.
Proof.
  induction walk1 as [|entry walk1 IH]; [done|].
  cbn [app]. by rewrite !walk_files_cons, IH, app_assoc.
Qed.

(** Files with other ids leave the entry of an id alone. *)
Lemma index_file_other (root : string) (files : list string)
    (acc : gmap string string * nat) (k : string) :
  (∀ f, f ∈ files → indexed f = true → clean_id f ≠ k) →
  (foldl (index_file w root) acc files).1 !! k = acc.1 !! k.
Proof.
  revert acc. induction files as [|f files IH]; intros acc H; [done|].
  cbn [foldl]. rewrite IH by (intros g Hg; apply H; by right).
  unfold index_file. destruct (indexed f) eqn:Hf; [|done]. cbn.
  apply lookup_insert_ne, H; [left|done].
Qed.

Lemma index_dir_other (walk : list (string * list string * list string))
    (acc : gmap string string * nat) (k : string) :
  (∀ f, f ∈ walk_files walk → indexed f = true → clean_id f ≠ k) →
  (foldl (index_dir w) acc walk).1 !! k = acc.1 !! k.
Proof.
  revert acc. induction walk as [|entry walk IH]; intros acc H; [done|].
  cbn [foldl]. rewrite walk_files_cons in H.
  rewrite IH by (intros g Hg; apply H, elem_of_app; by right).
  apply index_file_other. intros g Hg. apply H, elem_of_app. by left.
Qed.

(** The last indexed file of an id decides its entry. *)
Lemma index_walk_last (before after : list (string * list string * list string))
    (dir : string) (dirs fs1 fs2 : list string) (file : string) :
  indexed file = true →
  (∀ f, f ∈ fs2 ++ walk_files after → indexed f = true →
        clean_id f ≠ clean_id file) →
  (index_walk w (before ++ (dir, dirs, fs1 ++ file :: fs2) :: after)).1
    !! clean_id file
  = Some (path_join w dir file).
Proof.
  intros Hi Hlater. unfold index_walk. rewrite foldl_app. cbn [foldl].
  rewrite index_dir_other
    by (intros g Hg; apply Hlater, elem_of_app; by right).
  unfold index_dir at 1. cbn [fst snd]. rewrite foldl_app. cbn [foldl].
  rewrite index_file_other
    by (intros g Hg; apply Hlater, elem_of_app; by left).
  unfold index_file at 1. rewrite Hi. cbn. apply lookup_insert_eq.
Qed.

(** The counter counts indexed files; the dictionary cannot be larger. *)
Lemma index_file_count (root : string) (files : list string)
    (acc : gmap string string * nat) :
  (foldl (index_file w root) acc files).2
  = acc.2 + length (filter (λ f, indexed f) files)
  ∧ size (foldl (index_file w root) acc files).1
    ≤ size acc.1 + length (filter (λ f, indexed f) files).
Proof.
  revert acc. induction files as [|f files IH]; intros acc.
  - cbn. lia.
  - cbn [foldl]. destruct (IH (index_file w root acc f)) as [-> Hsize].
    unfold index_file in *. destruct (indexed f) eqn:Hf.
    + rewrite filter_cons_True by (by apply Is_true_true). cbn in *.
      split; [lia|].
      etrans; [exact Hsize|].
      destruct (acc.1 !! clean_id f) eqn:E.
      * rewrite map_size_insert_Some by eauto. lia.
      * rewrite map_size_insert_None by done. lia.
    + rewrite filter_cons_False by (by apply Is_true_false). done.
Qed.

Lemma index_walk_count (walk : list (string * list string * list string)) :
  (index_walk w walk).2 = length (filter (λ f, indexed f) (walk_files walk))
  ∧ size (index_walk w walk).1
    ≤ length (filter (λ f, indexed f) (walk_files walk)).
Proof.
  unfold index_walk.
  assert (∀ acc : gmap string string * nat,
            (foldl (index_dir w) acc walk).2
            = acc.2 + length (filter (λ f, indexed f) (walk_files walk))
            ∧ size (foldl (index_dir w) acc walk).1
              ≤ size acc.1 + length (filter (λ f, indexed f) (walk_files walk)))
    as H.
  { induction walk as [|entry walk IH]; intros acc; [cbn; lia|].
    cbn [foldl]. destruct (IH (index_dir w acc entry)) as [-> Hsize].
    unfold index_dir in *.
    destruct (index_file_count entry.1.1 entry.2 acc) as [Hc Hs].
    rewrite walk_files_cons, filter_app, length_app.
    split; [rewrite Hc; lia|].
    etrans; [exact Hsize|]. lia. }
  destruct (H (∅, 0)) as [H1 H2]. cbn [fst snd] in H1, H2.
  rewrite map_size_empty in H2. split; [done|lia].
Qed.

(** [os.walk] lists the files of every folder of the tree. *)
Lemma os_walk_lists (top : string) (t : fs_tree) (dir file : string) :
  tree_file w top t dir file →
  ∃ dirs files, (dir, dirs, files) ∈ os_walk w top t ∧ file ∈ files.
Proof.
  induction 1 as [top entries file Hin
                 |top entries name sub dir file Hin _ (dirs & files & Hw & Hf)].
  - cbn [os_walk]. eexists _, _. split; [left|].
    apply list_elem_of_omap. by exists (file, File).
  - exists dirs, files. split; [|done]. cbn [os_walk]. right.
    induction entries as [|[n s] entries IH]; [by inversion Hin|].
    apply elem_of_app. apply elem_of_cons in Hin as [[= <- <-]|Hin]; [by left|].
    right. by apply IH.
Qed.

End IndexMore.

(** X1: indexing is recursive and complete.  A file that lies in the
    root folder or in a subfolder at any depth, whose name ends in [.csv]
    and does not contain [ensemble], has its id as a key of the returned
    dictionary. *)
Theorem qualifying_file_is_indexed_at_any_depth
    (w : World) (root_folder : string) (st : State) (t : fs_tree)
    (dir file : string) :
  fs_roots w !! root_folder = Some t →
  tree_file w root_folder t dir file →
  PyStr.endswith file ".csv" = true →
  PyStr.contains "ensemble" file = false →
  ∃ file_map st' path,
    map_files w root_folder st = (Returned file_map, st')
    ∧ file_map !! clean_id file = Some path.
Proof.
  intros Ht Hfile Hcsv Hens.
  destruct (os_walk_lists w _ _ _ _ Hfile) as (dirs & files & Hw & Hf).
  assert (Hi : indexed file = true) by (unfold indexed; by rewrite Hcsv, Hens).
  pose proof (index_of_covers w _ _ _ _ _ _ Ht Hw Hf Hi) as [path Hpath]%elem_of_dom.
  exists (index_of w root_folder), (say (scan_lines w root_folder) st), path.
  split; [apply map_files_run|done].
Qed.

Lemma qualifying_file_is_indexed_at_any_depth_witness :
  ∃ file_map st' path,
    map_files Sample2.dup_world Sample2.dup_root Sample.start = (Returned file_map, st')
    ∧ file_map !! clean_id "b.csv" = Some path.
Proof.
  apply (qualifying_file_is_indexed_at_any_depth Sample2.dup_world Sample2.dup_root
           Sample.start Sample2.dup_tree "D:\dup\deep\deeper" "b.csv");
    [reflexivity| |reflexivity|reflexivity].
  eapply tree_file_below; [right; right; left|].
  eapply tree_file_below; [left|].
  apply tree_file_here. right. left.
Defined.

(** X2: last write wins.  When several indexed files share an id, the
    dictionary keeps the path of the one the walk visits last; what was
    stored for the id before is overwritten. *)
Theorem last_file_of_an_id_wins
    (w : World) (root_folder : string) (st : State) (t : fs_tree)
    (before after : list (string * list string * list string))
    (dir : string) (dirs fs1 fs2 : list string) (file : string) :
  fs_roots w !! root_folder = Some t →
  os_walk w root_folder t = before ++ (dir, dirs, fs1 ++ file :: fs2) :: after →
  indexed file = true →
  (∀ f, f ∈ fs2 ++ walk_files after → indexed f = true →
        clean_id f ≠ clean_id file) →
  ∃ file_map st',
    map_files w root_folder st = (Returned file_map, st')
    ∧ file_map !! clean_id file = Some (path_join w dir file).
Proof.
  intros Ht Hwalk Hi Hlater.
  exists (index_of w root_folder), (say (scan_lines w root_folder) st).
  split; [apply map_files_run|].
  unfold index_of. rewrite Ht, Hwalk. by apply index_walk_last.
Qed.

Lemma last_file_of_an_id_wins_witness :
  ∃ file_map st',
    map_files Sample2.dup_world Sample2.dup_root Sample.start = (Returned file_map, st')
    ∧ file_map !! clean_id "a_trace.csv"
      = Some (path_join Sample2.dup_world "D:\dup\deep\deeper" "a_trace.csv").
Proof.
  apply (last_file_of_an_id_wins Sample2.dup_world Sample2.dup_root Sample.start
           Sample2.dup_tree
           [("D:\dup", ["deep"], ["a_clean.csv"; "a.csv"]);
            ("D:\dup\deep", ["deeper"], [])] []
           "D:\dup\deep\deeper" [] [] ["b.csv"] "a_trace.csv");
    [reflexivity|reflexivity|reflexivity|].
  intros f Hf Hi. apply elem_of_cons in Hf as [->|Hf]; [by vm_compute|].
  by inversion Hf.
Defined.

(** X3: the printed count is the number of indexed files of the tree, not
    the number of ids: the dictionary has at most that many keys (fewer
    when ids collide), and it is empty when no file qualifies. *)
Theorem found_count_counts_files
    (w : World) (root_folder : string) (st : State) (t : fs_tree) :
  fs_roots w !! root_folder = Some t →
  let count :=
    length (filter (λ file, indexed file) (walk_files (os_walk w root_folder t))) in
  ∃ file_map,
    map_files w root_folder st
    = (Returned file_map,
       {| console := console st ++ [LScanning root_folder; LFound count];
          out_files := out_files st |})
    ∧ size file_map ≤ count
    ∧ (count = 0 → file_map = ∅).
Proof.
  intros Ht count. exists (index_of w root_folder).
  destruct (index_walk_count w (os_walk w root_folder t)) as [Hc Hs].
  fold count in Hc, Hs. split_and!.
  - rewrite map_files_run. unfold say, scan_lines. by rewrite Ht, Hc.
  - unfold index_of. by rewrite Ht.
  - intros H0. unfold index_of. rewrite Ht. apply map_size_empty_inv. lia.
Qed.

Lemma found_count_counts_files_witness :
  ∃ file_map,
    map_files Sample2.dup_world Sample2.dup_root Sample.start
    = (Returned file_map,
       {| console := console Sample.start ++ [LScanning Sample2.dup_root; LFound 4];
          out_files := out_files Sample.start |})
    ∧ size file_map ≤ 4
    ∧ (4 = 0 → file_map = ∅).
Proof.
  apply (found_count_counts_files Sample2.dup_world Sample2.dup_root Sample.start
           Sample2.dup_tree).
  reflexivity.
Defined.

(** Four files are counted there, but they share two ids. *)
Example sample_count_exceeds_keys :
  size (index_of Sample2.dup_world Sample2.dup_root) = 2.
Proof. by vm_compute. Qed.

(** X4: a plain [foo.csv] gets the id [foo] as well, so it meets the
    suffixed variants of the other folders (for a stem without tokens that
    is not made of dots only). *)
Theorem bare_name_gets_the_stem (foo : string) :
  PyStr.all_dots foo = false →
  PyStr.contains "_filtered" foo = false →
  PyStr.contains "_trace" foo = false →
  PyStr.contains "_clean" foo = false →
  clean_id (foo +:+ ".csv") = foo
  ∧ clean_id (foo +:+ ".csv") = clean_id (foo +:+ "_filtered.csv")
  ∧ clean_id (foo +:+ ".csv") = clean_id (foo +:+ "_trace.csv")
  ∧ clean_id (foo +:+ ".csv") = clean_id (foo +:+ "_clean.csv").
Proof.
  intros Hd Hf Ht Hc.
  destruct (clean_id_same_for_all_stems foo) as (-> & -> & ->).
  unfold clean_id. rewrite splitext_root_csv by done.
  by rewrite strip_tokens_absent.
Qed.

Lemma bare_name_gets_the_stem_witness :
  clean_id ("subject7" +:+ ".csv") = "subject7"
  ∧ clean_id ("subject7" +:+ ".csv") = clean_id ("subject7" +:+ "_filtered.csv")
  ∧ clean_id ("subject7" +:+ ".csv") = clean_id ("subject7" +:+ "_trace.csv")
  ∧ clean_id ("subject7" +:+ ".csv") = clean_id ("subject7" +:+ "_clean.csv").
Proof. apply (bare_name_gets_the_stem "subject7"); reflexivity. Defined.

(** ** More on [process_fusion] (lines 56-111) *)

(** X5: an unreadable input.  When reading one of the three files raises
    (the first that does, in the order POS, PhysNet, EfficientPhys), the
    call answers [False], prints that exception and writes no file. *)
Theorem unreadable_file_fails_cleanly
    (w : World) (vid_id p_pos p_phy p_eff : string) (st : State) (e : Exn) :
  (csv_at w p_pos = inl e
   ∨ (∃ d_pos, csv_at w p_pos = inr d_pos ∧ csv_at w p_phy = inl e)
   ∨ (∃ d_pos d_phy, csv_at w p_pos = inr d_pos ∧ csv_at w p_phy = inr d_phy
        ∧ csv_at w p_eff = inl e)) →
  process_fusion w vid_id p_pos p_phy p_eff st
  = (Returned false,
     {| console := console st ++ [LError vid_id e]; out_files := out_files st |}).
Proof.
  unfold process_fusion, fusion_body, mbind, M_bind, read_csv.
  intros [H1|[(d_pos & H1 & H2)|(d_pos & d_phy & H1 & H2 & H3)]].
  - by rewrite H1.
  - by rewrite H1, H2.
  - by rewrite H1, H2, H3.
Qed.

Lemma unreadable_file_fails_cleanly_witness :
  process_fusion Sample.world "bar" (Sample.pos_path "bar_trace.csv")
    (Sample.phy_path "bar.csv") (Sample.eff_path "bar_clean.csv") Sample.start
  = (Returned false,
     {| console := console Sample.start ++ [LError "bar" (Exception "ParserError")];
        out_files := out_files Sample.start |}).
Proof.
  apply (unreadable_file_fails_cleanly Sample.world "bar"
           (Sample.pos_path "bar_trace.csv") (Sample.phy_path "bar.csv")
           (Sample.eff_path "bar_clean.csv") Sample.start (Exception "ParserError")).
  left. reflexivity.
Defined.

(** X6: a failed CSV write.  When the three files are read, the overlap
    is long enough and writing the CSV raises, the call answers [False]
    and prints the exception, and the graph is never attempted: no path
    other than the one of the CSV changes.  At the path of the CSV there
    is what was there before, or what the broken write left: the first
    rows of the table, never rows of another content. *)
Theorem failed_csv_write_skips_the_graph
    (w : World) (vid_id p_pos p_phy p_eff : string)
    (d_pos d_phy d_eff : DataFrame) (st : State) (e : Exn) :
  csv_at w p_pos = inr d_pos →
  csv_at w p_phy = inr d_phy →
  csv_at w p_eff = inr d_eff →
  let min_len :=
    Nat.min (Nat.min (length (signal_of w d_pos)) (length (signal_of w d_phy)))
            (length (signal_of w d_eff)) in
  30 ≤ min_len →
  to_csv_error w (out_csv_path w vid_id) = Some e →
  let time_axis := take min_len (fst <$> df_rows d_pos) in
  let fused :=
    weighted (take min_len (signal_of w d_pos)) (take min_len (signal_of w d_phy))
             (take min_len (signal_of w d_eff)) in
  ∃ st',
    process_fusion w vid_id p_pos p_phy p_eff st = (Returned false, st')
    ∧ console st' = console st ++ [LError vid_id e]
    ∧ out_files st' !! out_png_path w vid_id = out_files st !! out_png_path w vid_id
    ∧ (∀ path, path ≠ out_csv_path w vid_id →
         out_files st' !! path = out_files st !! path)
    ∧ (out_files st' !! out_csv_path w vid_id = out_files st !! out_csv_path w vid_id
       ∨ ∃ k, out_files st' !! out_csv_path w vid_id
              = Some (CsvPartial (take k time_axis) (take k fused))).
Proof.
  intros Hpos Hphy Heff min_len Hlen Hcsv time_axis fused. unfold process_fusion.
  rewrite (fusion_body_loaded w vid_id p_pos p_phy p_eff d_pos d_phy d_eff) by done.
  fold min_len. rewrite decide_False by lia. rewrite Hcsv.
  destruct (to_csv_leaves w (out_csv_path w vid_id)) as [k|];
    eexists; (split; [reflexivity|]); cbn [console out_files];
    (split; [done|]).
  - split_and!.
    + apply lookup_insert_ne, out_csv_png_distinct.
    + intros path Hne. by apply lookup_insert_ne.
    + right. exists k. apply lookup_insert_eq.
  - split_and!; [done|done|by left].
Qed.

Lemma failed_csv_write_skips_the_graph_witness :
  let min_len :=
    Nat.min (Nat.min (length (signal_of Sample2.full_disk_world Sample.pos_frame))
                     (length (signal_of Sample2.full_disk_world Sample.phy_frame)))
            (length (signal_of Sample2.full_disk_world Sample.eff_frame)) in
  let time_axis := take min_len (fst <$> df_rows Sample.pos_frame) in
  let fused :=
    weighted (take min_len (signal_of Sample2.full_disk_world Sample.pos_frame))
             (take min_len (signal_of Sample2.full_disk_world Sample.phy_frame))
             (take min_len (signal_of Sample2.full_disk_world Sample.eff_frame)) in
  ∃ st',
    process_fusion Sample2.full_disk_world "foo" (Sample.pos_path "foo_filtered.csv")
      (Sample.phy_path "foo_trace.csv") (Sample.eff_path "foo_clean.csv")
      Sample2.used_start
    = (Returned false, st')
    ∧ console st' = console Sample2.used_start ++ [LError "foo" (Exception "OSError")]
    ∧ out_files st' !! out_png_path Sample2.full_disk_world "foo"
      = out_files Sample2.used_start !! out_png_path Sample2.full_disk_world "foo"
    ∧ (∀ path, path ≠ out_csv_path Sample2.full_disk_world "foo" →
         out_files st' !! path = out_files Sample2.used_start !! path)
    ∧ (out_files st' !! out_csv_path Sample2.full_disk_world "foo"
       = out_files Sample2.used_start !! out_csv_path Sample2.full_disk_world "foo"
       ∨ ∃ k, out_files st' !! out_csv_path Sample2.full_disk_world "foo"
              = Some (CsvPartial (take k time_axis) (take k fused))).
Proof.
  apply (failed_csv_write_skips_the_graph Sample2.full_disk_world "foo"
           (Sample.pos_path "foo_filtered.csv") (Sample.phy_path "foo_trace.csv")
           (Sample.eff_path "foo_clean.csv")
           Sample.pos_frame Sample.phy_frame Sample.eff_frame Sample2.used_start
           (Exception "OSError"));
    [reflexivity|reflexivity|reflexivity|vm_compute; lia|reflexivity].
Defined.

(** There the old CSV of [foo] is replaced by the seven rows written
    before the disk was full, and no graph appears. *)
Example sample_broken_write :
  let st' := (process_fusion Sample2.full_disk_world "foo"
                (Sample.pos_path "foo_filtered.csv") (Sample.phy_path "foo_trace.csv")
                (Sample.eff_path "foo_clean.csv") Sample2.used_start).2 in
  out_files Sample2.used_start !! out_csv_path Sample2.full_disk_world "foo"
  = Some (CsvTable ["0"] [9%float])
  ∧ out_files st' !! out_csv_path Sample2.full_disk_world "foo"
    = Some (CsvPartial (replicate 7 "0.033")
              [(-1.7)%float; (-1.9)%float; (-1.9)%float; (-1.7)%float; (-1.7)%float;
               (-1.7)%float; (-1.7)%float])
  ∧ out_files st' !! out_png_path Sample2.full_disk_world "foo" = None.
Proof. by vm_compute. Qed.

(** X7: a successful call.  With readable files, an overlap of at least
    30 and no error while writing, the call answers [True], prints
    nothing, and writes two files that hold one and the same pair of
    series: the fused values, and as time axis the first column of the POS
    file cut to the common length (the time columns of the two other
    files are not read). *)
Theorem successful_call_writes_both_files
    (w : World) (vid_id p_pos p_phy p_eff : string)
    (d_pos d_phy d_eff : DataFrame) (st : State) :
  csv_at w p_pos = inr d_pos →
  csv_at w p_phy = inr d_phy →
  csv_at w p_eff = inr d_eff →
  let min_len :=
    Nat.min (Nat.min (length (signal_of w d_pos)) (length (signal_of w d_phy)))
            (length (signal_of w d_eff)) in
  30 ≤ min_len →
  to_csv_error w (out_csv_path w vid_id) = None →
  savefig_error w (out_png_path w vid_id) = None →
  let time_axis := take min_len (fst <$> df_rows d_pos) in
  let fused :=
    weighted (take min_len (signal_of w d_pos)) (take min_len (signal_of w d_phy))
             (take min_len (signal_of w d_eff)) in
  process_fusion w vid_id p_pos p_phy p_eff st
  = (Returned true,
     {| console := console st;
        out_files := <[out_png_path w vid_id := PngGraph time_axis fused]>
                       (<[out_csv_path w vid_id := CsvTable time_axis fused]>
                          (out_files st)) |}).
Proof.
  intros Hpos Hphy Heff min_len Hlen Hcsv Hpng time_axis fused.
  unfold process_fusion.
  rewrite (fusion_body_loaded w vid_id p_pos p_phy p_eff d_pos d_phy d_eff) by done.
  fold min_len. rewrite decide_False by lia. by rewrite Hcsv, Hpng.
Qed.

Lemma successful_call_writes_both_files_witness :
  let min_len :=
    Nat.min (Nat.min (length (signal_of Sample.world Sample.pos_frame))
                     (length (signal_of Sample.world Sample.phy_frame)))
            (length (signal_of Sample.world Sample.eff_frame)) in
  let time_axis := take min_len (fst <$> df_rows Sample.pos_frame) in
  let fused :=
    weighted (take min_len (signal_of Sample.world Sample.pos_frame))
             (take min_len (signal_of Sample.world Sample.phy_frame))
             (take min_len (signal_of Sample.world Sample.eff_frame)) in
  process_fusion Sample.world "foo" (Sample.pos_path "foo_filtered.csv")
    (Sample.phy_path "foo_trace.csv") (Sample.eff_path "foo_clean.csv") Sample.start
  = (Returned true,
     {| console := console Sample.start;
        out_files := <[out_png_path Sample.world "foo" := PngGraph time_axis fused]>
                       (<[out_csv_path Sample.world "foo" := CsvTable time_axis fused]>
                          (out_files Sample.start)) |}).
Proof.
  apply (successful_call_writes_both_files Sample.world "foo"
           (Sample.pos_path "foo_filtered.csv") (Sample.phy_path "foo_trace.csv")
           (Sample.eff_path "foo_clean.csv")
           Sample.pos_frame Sample.phy_frame Sample.eff_frame Sample.start);
    [reflexivity|reflexivity|reflexivity|vm_compute; lia|reflexivity|reflexivity].
Defined.

(** X8: [True] means everything worked.  The call answers [True] only
    when all three files were read, the overlap has at least 30 samples
    and neither the CSV nor the graph raised; both files of the id are
    then among the output files. *)
Theorem true_only_after_full_success
    (w : World) (vid_id p_pos p_phy p_eff : string) (st st' : State) :
  process_fusion w vid_id p_pos p_phy p_eff st = (Returned true, st') →
  ∃ d_pos d_phy d_eff,
    csv_at w p_pos = inr d_pos
    ∧ csv_at w p_phy = inr d_phy
    ∧ csv_at w p_eff = inr d_eff
    ∧ 30 ≤ Nat.min (Nat.min (length (signal_of w d_pos)) (length (signal_of w d_phy)))
                   (length (signal_of w d_eff))
    ∧ to_csv_error w (out_csv_path w vid_id) = None
    ∧ savefig_error w (out_png_path w vid_id) = None
    ∧ is_Some (out_files st' !! out_csv_path w vid_id)
    ∧ is_Some (out_files st' !! out_png_path w vid_id).
Proof.
  unfold process_fusion. intros H.
  destruct (csv_at w p_pos) as [e|d_pos] eqn:Hpos.
  { unfold fusion_body, mbind, M_bind, read_csv in H. by rewrite Hpos in H. }
  destruct (csv_at w p_phy) as [e|d_phy] eqn:Hphy.
  { unfold fusion_body, mbind, M_bind, read_csv in H. by rewrite Hpos, Hphy in H. }
  destruct (csv_at w p_eff) as [e|d_eff] eqn:Heff.
  { unfold fusion_body, mbind, M_bind, read_csv in H.
    by rewrite Hpos, Hphy, Heff in H. }
  rewrite (fusion_body_loaded w vid_id p_pos p_phy p_eff d_pos d_phy d_eff) in H
    by done.
  exists d_pos, d_phy, d_eff.
  case_decide as Hlen; [done|].
  destruct (to_csv_error _ _) as [e|]; [done|].
  destruct (savefig_error _ _) as [e|]; [done|].
  injection H as <-. cbn [out_files].
  split_and!; [done|done|done|lia|done|done| |].
  - rewrite lookup_insert_ne by (apply not_eq_sym, out_csv_png_distinct).
    rewrite lookup_insert_eq. by eexists.
  - rewrite lookup_insert_eq. by eexists.
Qed.

Lemma true_only_after_full_success_witness :
  ∃ d_pos d_phy d_eff,
    csv_at Sample.world (Sample.pos_path "foo_filtered.csv") = inr d_pos
    ∧ csv_at Sample.world (Sample.phy_path "foo_trace.csv") = inr d_phy
    ∧ csv_at Sample.world (Sample.eff_path "foo_clean.csv") = inr d_eff
    ∧ 30 ≤ Nat.min (Nat.min (length (signal_of Sample.world d_pos))
                            (length (signal_of Sample.world d_phy)))
                   (length (signal_of Sample.world d_eff))
    ∧ to_csv_error Sample.world (out_csv_path Sample.world "foo") = None
    ∧ savefig_error Sample.world (out_png_path Sample.world "foo") = None
    ∧ is_Some (out_files
                 (process_fusion Sample.world "foo" (Sample.pos_path "foo_filtered.csv")
                    (Sample.phy_path "foo_trace.csv") (Sample.eff_path "foo_clean.csv")
                    Sample.start).2 !! out_csv_path Sample.world "foo")
    ∧ is_Some (out_files
                 (process_fusion Sample.world "foo" (Sample.pos_path "foo_filtered.csv")
                    (Sample.phy_path "foo_trace.csv") (Sample.eff_path "foo_clean.csv")
                    Sample.start).2 !! out_png_path Sample.world "foo").
Proof.
  apply (true_only_after_full_success Sample.world "foo"
           (Sample.pos_path "foo_filtered.csv") (Sample.phy_path "foo_trace.csv")
           (Sample.eff_path "foo_clean.csv") Sample.start).
  vm_compute. reflexivity.
Defined.

(** X9: the call keeps to itself.  Whatever happens, [process_fusion]
    ends without raising, prints at most one line, and leaves every
    output file other than the CSV and the graph of its own id as it
    was. *)
Theorem call_never_raises_and_touches_only_its_files
    (w : World) (vid_id p_pos p_phy p_eff : string) (st : State) :
  ∃ ok st' printed,
    process_fusion w vid_id p_pos p_phy p_eff st = (Returned ok, st')
    ∧ console st' = console st ++ printed
    ∧ length printed ≤ 1
    ∧ ∀ path, path ≠ out_csv_path w vid_id → path ≠ out_png_path w vid_id →
        out_files st' !! path = out_files st !! path.
Proof.
  destruct (process_fusion_shape w vid_id p_pos p_phy p_eff st) as (files & -> & Hf).
  eexists _, _, _. split_and!; [done|done| |].
  - destruct (fusion_outcome _ _ _ _ _); cbn; lia.
  - intros path H1 H2. by apply Hf.
Qed.

(** A second call changes no file. *)
Lemma fusion_body_files_idempotent
    (w : World) (vid_id p_pos p_phy p_eff : string) (st st1 : State) :
  out_files st1 = out_files (fusion_body w vid_id p_pos p_phy p_eff st).2 →
  out_files (fusion_body w vid_id p_pos p_phy p_eff st1).2 = out_files st1.
Proof.
  unfold fusion_body, mbind, M_bind, read_csv.
  destruct (csv_at w p_pos) as [?|d_pos]; [done|].
  destruct (csv_at w p_phy) as [?|d_phy]; [done|].
  destruct (csv_at w p_eff) as [?|d_eff]; [done|].
  cbn. case_decide; [done|].
  unfold to_csv, save_graph, raise, write_file.
  destruct (to_csv_error _ _).
  { destruct (to_csv_leaves _ _); unfold mbind, M_bind; cbn; intros ->; [|done].
    by rewrite insert_insert_eq. }
  cbn.
  destruct (savefig_error _ _); cbn; intros ->.
  - by rewrite insert_insert_eq.
  - apply map_eq. intros k. rewrite !lookup_insert. by repeat case_decide.
Qed.

Lemma process_fusion_answer
    (w : World) (vid_id p_pos p_phy p_eff : string) (st : State) :
  (process_fusion w vid_id p_pos p_phy p_eff st).1
  = Returned match fusion_outcome w vid_id p_pos p_phy p_eff with
             | Returned b => b
             | Raised _ => false
             end.
Proof.
  by destruct (process_fusion_shape w vid_id p_pos p_phy p_eff st) as (? & -> & _).
Qed.

Lemma process_fusion_files
    (w : World) (vid_id p_pos p_phy p_eff : string) (st : State) :
  out_files (process_fusion w vid_id p_pos p_phy p_eff st).2
  = out_files (fusion_body w vid_id p_pos p_phy p_eff st).2.
Proof.
  unfold process_fusion.
  by destruct (fusion_body w vid_id p_pos p_phy p_eff st) as [[b|e] s].
Qed.

(** X10: calling again is harmless.  A second call for the same id
    gives the same answer as the first and leaves the output files
    exactly as the first call left them. *)
Theorem second_call_changes_no_file
    (w : World) (vid_id p_pos p_phy p_eff : string) (st : State) :
  let first := process_fusion w vid_id p_pos p_phy p_eff st in
  let second := process_fusion w vid_id p_pos p_phy p_eff first.2 in
  second.1 = first.1 ∧ out_files second.2 = out_files first.2.
Proof.
  cbn zeta. split.
  - by rewrite !process_fusion_answer.
  - rewrite (process_fusion_files w vid_id p_pos p_phy p_eff
               (process_fusion w vid_id p_pos p_phy p_eff st).2).
    apply (fusion_body_files_idempotent w vid_id p_pos p_phy p_eff st).
    apply process_fusion_files.
Qed.

(** ** More on [main] (lines 116-148) *)

Section LoopMore.

Context (w : World) (map_pos map_phy map_eff : gmap string string) (n : nat).

(** The counter grows by the number of ids whose call answers [True]. *)
Lemma fuse_loop_count (ids : list string) (i count : nat) (st : State) :
  all_mapped map_pos map_phy map_eff ids →
  (fuse_loop w map_pos map_phy map_eff n i ids count st).1
  = Returned (count + length (filter (λ v, fusion_succeeds w map_pos map_phy map_eff v)
                                ids)).
Proof.
  revert i count st. induction ids as [|v ids IH]; intros i count st Hall.
  - cbn. f_equal. lia.
  - destruct (Hall v) as ([p_pos E1] & [p_phy E2] & [p_eff E3]); [left|].
    rewrite (fuse_loop_step w _ _ _ _ _ _ _ _ _ _ _ _ E1 E2 E3).
    destruct (process_fusion_shape w v p_pos p_phy p_eff
                (say [LFusing (i + 1) n v] st)) as (files & -> & _).
    assert (Hs : fusion_succeeds w map_pos map_phy map_eff v
                 = match fusion_outcome w v p_pos p_phy p_eff with
                   | Returned true => true
                   | _ => false
                   end)
      by (unfold fusion_succeeds; by rewrite E1, E2, E3).
    destruct (fusion_outcome w v p_pos p_phy p_eff) as [[]|e];
      rewrite IH by (intros u Hu; apply Hall; by right).
    + rewrite filter_cons_True by (by apply Is_true_true). cbn. f_equal. lia.
    + rewrite filter_cons_False by (by apply Is_true_false). done.
    + rewrite filter_cons_False by (by apply Is_true_false). done.
Qed.

(** The [try] block adds its files on top of those that exist. *)
Lemma fusion_body_writes (vid_id p_pos p_phy p_eff : string) (st : State) :
  out_files (fusion_body w vid_id p_pos p_phy p_eff st).2
  = fusion_writes w vid_id p_pos p_phy p_eff ∪ out_files st.
Proof.
  unfold fusion_writes, fusion_body, mbind, M_bind, read_csv.
  destruct (csv_at w p_pos) as [?|d_pos]; [cbn; by rewrite (left_id_L ∅ (∪))|].
  destruct (csv_at w p_phy) as [?|d_phy]; [cbn; by rewrite (left_id_L ∅ (∪))|].
  destruct (csv_at w p_eff) as [?|d_eff]; [cbn; by rewrite (left_id_L ∅ (∪))|].
  cbn. case_decide; [cbn; by rewrite (left_id_L ∅ (∪))|].
  unfold to_csv, save_graph, raise, write_file.
  destruct (to_csv_error _ _).
  { destruct (to_csv_leaves _ _); unfold mbind, M_bind; cbn;
      by rewrite <-?insert_union_l, (left_id_L ∅ (∪)). }
  cbn.
  destruct (savefig_error _ _); cbn;
    by rewrite <-?insert_union_l, (left_id_L ∅ (∪)).
Qed.

Lemma fuse_loop_writes (ids : list string) (i count : nat) (st : State) :
  out_files (fuse_loop w map_pos map_phy map_eff n i ids count st).2
  = loop_writes w map_pos map_phy map_eff ids ∪ out_files st.
Proof.
  revert i count st. induction ids as [|v ids IH]; intros i count st.
  - cbn. by rewrite (left_id_L ∅ (∪)).
  - destruct (decide (is_Some (map_pos !! v) ∧ is_Some (map_phy !! v)
                      ∧ is_Some (map_eff !! v)))
      as [([p_pos E1] & [p_phy E2] & [p_eff E3])|Hno].
    + rewrite (fuse_loop_step w _ _ _ _ _ _ _ _ _ _ _ _ E1 E2 E3).
      cbn [loop_writes]. rewrite E1, E2, E3.
      pose proof (process_fusion_files w v p_pos p_phy p_eff
                    (say [LFusing (i + 1) n v] st)) as Hf.
      rewrite fusion_body_writes in Hf. cbn [say out_files] in Hf.
      pose proof (process_fusion_answer w v p_pos p_phy p_eff
                    (say [LFusing (i + 1) n v] st)) as Ha.
      destruct (process_fusion w v p_pos p_phy p_eff _) as [[[]|e] st1];
        cbn [fst snd] in Hf, Ha; [| |done].
      * rewrite IH. cbn [say out_files]. by rewrite Hf, (assoc_L (∪)).
      * rewrite IH. cbn [say out_files]. by rewrite Hf, (assoc_L (∪)).
    + destruct (fuse_loop_key_error w map_pos map_phy map_eff n v ids i count st Hno)
        as (e & -> & _).
      cbn [loop_writes snd say out_files].
      destruct (map_pos !! v), (map_phy !! v), (map_eff !! v);
        try by rewrite (left_id_L ∅ (∪)).
      destruct Hno. by eauto.
Qed.

(** The loop writes nothing at a path that belongs to none of its ids. *)
Lemma loop_writes_foreign (ids : list string) (path : string) :
  (∀ v, v ∈ ids → foreign_to w v path) →
  loop_writes w map_pos map_phy map_eff ids !! path = None.
Proof.
  induction ids as [|v ids IH]; intros H; [done|].
  cbn [loop_writes].
  destruct (map_pos !! v) as [p_pos|]; [|done].
  destruct (map_phy !! v) as [p_phy|]; [|done].
  destruct (map_eff !! v) as [p_eff|]; [|done].
  apply lookup_union_None. split; [apply IH; intros u Hu; apply H; by right|].
  destruct (fusion_body_shape w v p_pos p_phy p_eff
              {| console := []; out_files := ∅ |}) as (files & Hb & Hf).
  unfold fusion_writes. rewrite Hb. cbn [snd out_files].
  rewrite Hf by (apply H; left). done.
Qed.

(** What an id has written stays when the other ids are processed. *)
Lemma loop_writes_own (ids : list string) (v p_pos p_phy p_eff path : string)
    (c : file_content) :
  NoDup ids → v ∈ ids → all_mapped map_pos map_phy map_eff ids →
  map_pos !! v = Some p_pos → map_phy !! v = Some p_phy →
  map_eff !! v = Some p_eff →
  (path = out_csv_path w v ∨ path = out_png_path w v) →
  fusion_writes w v p_pos p_phy p_eff !! path = Some c →
  loop_writes w map_pos map_phy map_eff ids !! path = Some c.
Proof.
  intros Hnd Hv Hall E1 E2 E3 Hpath Hc.
  induction ids as [|u ids IH]; [by inversion Hv|].
  apply NoDup_cons in Hnd as [Hu Hnd]. cbn [loop_writes].
  destruct (Hall u) as ([q1 F1] & [q2 F2] & [q3 F3]); [left|].
  rewrite F1, F2, F3.
  apply elem_of_cons in Hv as [->|Hv].
  - rewrite lookup_union_r.
    + by replace q1 with p_pos by congruence; replace q2 with p_phy by congruence;
        replace q3 with p_eff by congruence.
    + apply loop_writes_foreign. intros x Hx.
      assert (x ≠ u) by (intros ->; done).
      split; destruct Hpath as [->| ->].
      * intros ?%out_csv_path_inj. done.
      * apply not_eq_sym, out_csv_png_distinct.
      * apply out_csv_png_distinct.
      * intros ?%out_png_path_inj. done.
  - apply lookup_union_Some_l, IH; [done..|].
    intros x Hx. apply Hall. by right.
Qed.

End LoopMore.

Section RunMore.

Context (w : World).

Let map_pos := index_of w PATH_POS.
Let map_phy := index_of w PATH_PHYSNET.
Let map_eff := index_of w PATH_EFFPHYS.
Let common_ids := common_ids_of map_pos map_phy map_eff.
Let scans : list line :=
  scan_lines w PATH_POS ++ scan_lines w PATH_PHYSNET ++ scan_lines w PATH_EFFPHYS.

(** [main] once the folder exists and the three folders are scanned. *)
Lemma main_unfolded (st : State) :
  makedirs_error w = None →
  main w st
  = if decide (common_ids = ∅)
    then (Returned tt, say (LStart :: scans ++ [LNoMatch]) st)
    else
      match fuse_loop w map_pos map_phy map_eff (size common_ids) 0
              (set_iteration w common_ids) 0
              (say (LStart :: scans ++ [LMatching (size common_ids)]) st) with
      | (Returned count, st') => (Returned tt, say [LSummary count] st')
      | (Raised e, st') => (Raised e, st')
      end.
Proof.
  intros Hmk. unfold main, makedirs. rewrite Hmk.
  unfold mbind at 1 2, M_bind at 1 2, print at 1, mret at 1, M_ret at 1.
  unfold mbind at 1, M_bind at 1. rewrite map_files_run.
  unfold mbind at 1, M_bind at 1. rewrite map_files_run.
  unfold mbind at 1, M_bind at 1. rewrite map_files_run.
  fold map_pos map_phy map_eff. fold common_ids.
  destruct (decide (common_ids = ∅)) as [Hempty|Hne].
  - unfold print, say. cbn [console out_files]. do 2 f_equal.
    unfold scans. by flatten_apps.
  - unfold mbind at 1, M_bind at 1, print at 1. cbn [say console out_files].
    unfold mbind at 1, M_bind at 1.
    assert (((((console st ++ [LStart]) ++ scan_lines w PATH_POS)
               ++ scan_lines w PATH_PHYSNET) ++ scan_lines w PATH_EFFPHYS)
             ++ [LMatching (size common_ids)]
            = console st ++ LStart :: scans ++ [LMatching (size common_ids)])
      as -> by (unfold scans; by flatten_apps).
    by destruct (fuse_loop _ _ _ _ _ _ _ _ _) as [[count|e] st'].
Qed.

Lemma common_ids_empty_iteration :
  common_ids = ∅ → set_iteration w common_ids = [].
Proof. intros ->. apply set_iteration_empty. Qed.

(** Answer, console and files of a run. *)
Lemma main_summary (st : State) :
  makedirs_error w = None →
  let succeeded :=
    filter (λ v, fusion_succeeds w map_pos map_phy map_eff v) (set_iteration w common_ids) in
  main w st
  = (Returned tt,
     {| console :=
          console st ++ LStart :: scans
          ++ (if decide (common_ids = ∅) then [LNoMatch]
              else LMatching (size common_ids)
                   :: loop_lines w map_pos map_phy map_eff (size common_ids) 0
                        (set_iteration w common_ids)
                   ++ [LSummary (length succeeded)]);
        out_files :=
          loop_writes w map_pos map_phy map_eff (set_iteration w common_ids)
          ∪ out_files st |}).
Proof.
  intros Hmk succeeded. rewrite main_unfolded by done.
  destruct (decide (common_ids = ∅)) as [Hempty|Hne].
  - rewrite (common_ids_empty_iteration Hempty). cbn [loop_writes].
    rewrite (left_id_L ∅ (∪)). unfold say. cbn [console out_files].
    do 2 f_equal. all: by flatten_apps.
  - pose proof (common_ids_mapped w map_pos map_phy map_eff) as Hall.
    fold common_ids in Hall.
    set (st0 := say _ st).
    pose proof (fuse_loop_count w map_pos map_phy map_eff (size common_ids)
                  (set_iteration w common_ids) 0 0 st0 Hall) as Hcount.
    pose proof (fuse_loop_writes w map_pos map_phy map_eff (size common_ids)
                  (set_iteration w common_ids) 0 0 st0) as Hwrites.
    destruct (fuse_loop_shape w map_pos map_phy map_eff (size common_ids)
                (set_iteration w common_ids) 0 0 st0) as (r & files & Hrun & _ & _).
    rewrite Hrun in *. cbn [fst snd out_files] in Hcount, Hwrites.
    subst r files. fold succeeded. unfold st0, say.
    cbn [console out_files Nat.add].
    do 2 f_equal. all: by flatten_apps.
Qed.

End RunMore.

(** X12: nothing to match.  When the three dictionaries have no id in
    common (for instance because a folder is missing), [main] ends
    normally with the no-match message, announces no fusion, prints no
    summary and leaves the output files as they were. *)
Theorem no_common_id_ends_the_run
    (w : World) (st s1 s2 s3 s1' s2' s3' : State)
    (map_pos map_phy map_eff : gmap string string) :
  makedirs_error w = None →
  map_files w PATH_POS s1 = (Returned map_pos, s1') →
  map_files w PATH_PHYSNET s2 = (Returned map_phy, s2') →
  map_files w PATH_EFFPHYS s3 = (Returned map_eff, s3') →
  common_ids_of map_pos map_phy map_eff = ∅ →
  ∃ st' printed,
    main w st = (Returned tt, st')
    ∧ console st' = console st ++ printed ++ [LNoMatch]
    ∧ announcements printed = []
    ∧ (∀ count, LSummary count ∉ printed)
    ∧ out_files st' = out_files st.
Proof.
  intros Hmk ->%map_files_returns ->%map_files_returns ->%map_files_returns Hempty.
  rewrite main_summary by done. rewrite decide_True by done.
  rewrite (common_ids_empty_iteration w Hempty). cbn [loop_writes].
  eexists _, (LStart :: scan_lines w PATH_POS ++ scan_lines w PATH_PHYSNET
              ++ scan_lines w PATH_EFFPHYS).
  split_and!; [done| | | |].
  - cbn [console]. by flatten_apps.
  - change (announcements (LStart :: ?l)) with (announcements l).
    by rewrite !announcements_app, !announcements_scan.
  - intros count H. apply elem_of_cons in H as [?|H]; [done|].
    rewrite !elem_of_app in H. unfold scan_lines in H.
    destruct H as [H|[H|H]];
      (apply elem_of_cons in H as [?|H]; [done|]);
      destruct (fs_roots w !! _);
      (apply elem_of_cons in H as [?|H]; [done|by inversion H]).
  - cbn [out_files]. by rewrite (left_id_L ∅ (∪)).
Qed.

Lemma no_common_id_ends_the_run_witness :
  ∃ st' printed,
    main Sample2.no_eff_world Sample.start = (Returned tt, st')
    ∧ console st' = console Sample.start ++ printed ++ [LNoMatch]
    ∧ announcements printed = []
    ∧ (∀ count, LSummary count ∉ printed)
    ∧ out_files st' = out_files Sample.start.
Proof.
  apply (no_common_id_ends_the_run Sample2.no_eff_world Sample.start
           Sample.start Sample.start Sample.start
           (map_files Sample2.no_eff_world PATH_POS Sample.start).2
           (map_files Sample2.no_eff_world PATH_PHYSNET Sample.start).2
           (map_files Sample2.no_eff_world PATH_EFFPHYS Sample.start).2
           (index_of Sample2.no_eff_world PATH_POS)
           (index_of Sample2.no_eff_world PATH_PHYSNET)
           (index_of Sample2.no_eff_world PATH_EFFPHYS));
    [reflexivity|vm_compute; reflexivity|vm_compute; reflexivity
    |vm_compute; reflexivity|].
  vm_compute. reflexivity.
Defined.

(** X13: the output folder.  When creating the output folder raises,
    the exception leaves [main] (it is raised outside the [try]): only the
    start message has been printed, no folder is scanned and no file is
    written. *)
Theorem makedirs_error_aborts_the_run (w : World) (st : State) (e : Exn) :
  makedirs_error w = Some e →
  main w st
  = (Raised e, {| console := console st ++ [LStart]; out_files := out_files st |}).
Proof. intros H. by rewrite (main_makedirs_fails w st e H). Qed.

Lemma makedirs_error_aborts_the_run_witness :
  main Sample2.read_only_world Sample.start
  = (Raised (Exception "PermissionError"),
     {| console := console Sample.start ++ [LStart];
        out_files := out_files Sample.start |}).
Proof.
  apply (makedirs_error_aborts_the_run Sample2.read_only_world Sample.start
           (Exception "PermissionError")).
  reflexivity.
Defined.

(** X14: the progress counter.  Once the output folder exists, [main]
    ends normally, and the fusions it announces are exactly the common
    ids, each once: in the order in which the run visits them they are
    numbered from 1 to their number [n], each shown with the total [n].
    The order itself is the run's; the statement holds for every order. *)
Theorem every_common_id_is_announced_once
    (w : World) (st s1 s2 s3 s1' s2' s3' : State)
    (map_pos map_phy map_eff : gmap string string) :
  makedirs_error w = None →
  map_files w PATH_POS s1 = (Returned map_pos, s1') →
  map_files w PATH_PHYSNET s2 = (Returned map_phy, s2') →
  map_files w PATH_EFFPHYS s3 = (Returned map_eff, s3') →
  let common_ids := common_ids_of map_pos map_phy map_eff in
  ∃ st' printed visited,
    main w st = (Returned tt, st')
    ∧ console st' = console st ++ printed
    ∧ visited ≡ₚ elements common_ids
    ∧ NoDup visited
    ∧ announcements printed
      = imap (λ k vid_id, (k + 1, size common_ids, vid_id)) visited
    ∧ length (announcements printed) = size common_ids.
Proof.
  intros Hmk ->%map_files_returns ->%map_files_returns ->%map_files_returns common_ids.
  subst common_ids. rewrite main_summary by done.
  set (common_ids := common_ids_of _ _ _).
  assert (Hann : announcements
                   (LStart :: (scan_lines w PATH_POS ++ scan_lines w PATH_PHYSNET
                               ++ scan_lines w PATH_EFFPHYS)
                      ++ (if decide (common_ids = ∅) then [LNoMatch]
                          else LMatching (size common_ids)
                               :: loop_lines w (index_of w PATH_POS)
                                    (index_of w PATH_PHYSNET) (index_of w PATH_EFFPHYS)
                                    (size common_ids) 0 (set_iteration w common_ids)
                               ++ [LSummary
                                     (length
                                        (filter
                                           (λ v, fusion_succeeds w (index_of w PATH_POS)
                                                   (index_of w PATH_PHYSNET)
                                                   (index_of w PATH_EFFPHYS) v)
                                           (set_iteration w common_ids)))]))
                 = imap (λ k vid_id, (k + 1, size common_ids, vid_id))
                     (set_iteration w common_ids)).
  { change (announcements (LStart :: ?l)) with (announcements l).
    rewrite !announcements_app, !announcements_scan. cbn [app].
    destruct (decide (common_ids = ∅)) as [Hempty|Hne].
    - by rewrite Hempty, set_iteration_empty.
    - change (announcements (LMatching ?m :: ?l)) with (announcements l).
      rewrite announcements_app, announcements_loop by apply common_ids_mapped.
      cbn. by rewrite app_nil_r. }
  eexists _, _, (set_iteration w common_ids).
  split_and!; [done|done| | |exact Hann|].
  - apply set_iteration_perm.
  - apply NoDup_set_iteration.
  - rewrite Hann, length_imap. apply length_set_iteration.
Qed.

Lemma every_common_id_is_announced_once_witness :
  let common_ids :=
    common_ids_of (index_of Sample.world PATH_POS) (index_of Sample.world PATH_PHYSNET)
      (index_of Sample.world PATH_EFFPHYS) in
  ∃ st' printed visited,
    main Sample.world Sample.start = (Returned tt, st')
    ∧ console st' = console Sample.start ++ printed
    ∧ visited ≡ₚ elements common_ids
    ∧ NoDup visited
    ∧ announcements printed
      = imap (λ k vid_id, (k + 1, size common_ids, vid_id)) visited
    ∧ length (announcements printed) = size common_ids.
Proof.
  apply (every_common_id_is_announced_once Sample.world Sample.start
           Sample.start Sample.start Sample.start
           (map_files Sample.world PATH_POS Sample.start).2
           (map_files Sample.world PATH_PHYSNET Sample.start).2
           (map_files Sample.world PATH_EFFPHYS Sample.start).2);
    [reflexivity|vm_compute; reflexivity|vm_compute; reflexivity
    |vm_compute; reflexivity].
Defined.

(** In the sample run the announcements follow the run's order. *)
Example sample_announcements :
  announcements (console (main Sample.world Sample.start).2)
  = [(1, 4, "bar"); (2, 4, "dim"); (3, 4, "tiny"); (4, 4, "foo")].
Proof. by vm_compute. Qed.

(** X15: the summary.  When there are common ids, the last line [main]
    prints is the summary, and the number it shows is the number of common
    ids whose call answered [True]; it is at most the number of common
    ids. *)
Theorem summary_counts_successful_ids
    (w : World) (st s1 s2 s3 s1' s2' s3' : State)
    (map_pos map_phy map_eff : gmap string string) :
  makedirs_error w = None →
  map_files w PATH_POS s1 = (Returned map_pos, s1') →
  map_files w PATH_PHYSNET s2 = (Returned map_phy, s2') →
  map_files w PATH_EFFPHYS s3 = (Returned map_eff, s3') →
  let common_ids := common_ids_of map_pos map_phy map_eff in
  common_ids ≠ ∅ →
  let count :=
    length (filter (λ v, fusion_succeeds w map_pos map_phy map_eff v)
              (elements common_ids)) in
  (∃ st' before,
     main w st = (Returned tt, st')
     ∧ console st' = console st ++ before ++ [LSummary count])
  ∧ count ≤ size common_ids
  ∧ ∀ v p_pos p_phy p_eff s,
      map_pos !! v = Some p_pos → map_phy !! v = Some p_phy →
      map_eff !! v = Some p_eff →
      (fusion_succeeds w map_pos map_phy map_eff v = true
       ↔ (process_fusion w v p_pos p_phy p_eff s).1 = Returned true).
Proof.
  intros Hmk ->%map_files_returns ->%map_files_returns ->%map_files_returns
    common_ids Hne count.
  split_and!.
  - rewrite main_summary by done. fold common_ids. rewrite decide_False by done.
    assert (length (filter (λ v, fusion_succeeds w (index_of w PATH_POS)
                                   (index_of w PATH_PHYSNET) (index_of w PATH_EFFPHYS) v)
                      (set_iteration w common_ids)) = count) as ->
      by apply Permutation_length, filter_Permutation, set_iteration_perm.
    eexists _, _. split; [done|]. cbn [console].
    instantiate (1 := LStart :: (scan_lines w PATH_POS ++ scan_lines w PATH_PHYSNET
                                 ++ scan_lines w PATH_EFFPHYS)
                      ++ LMatching (size common_ids)
                         :: loop_lines w (index_of w PATH_POS)
                              (index_of w PATH_PHYSNET) (index_of w PATH_EFFPHYS)
                              (size common_ids) 0 (set_iteration w common_ids)).
    by flatten_apps.
  - change (size common_ids) with (length (elements common_ids)).
    apply length_filter.
  - intros v p_pos p_phy p_eff s E1 E2 E3.
    rewrite process_fusion_answer. unfold fusion_succeeds. rewrite E1, E2, E3.
    destruct (fusion_outcome w v p_pos p_phy p_eff) as [[]|]; naive_solver.
Qed.

Lemma summary_counts_successful_ids_witness :
  let map_pos := index_of Sample.world PATH_POS in
  let map_phy := index_of Sample.world PATH_PHYSNET in
  let map_eff := index_of Sample.world PATH_EFFPHYS in
  let common_ids := common_ids_of map_pos map_phy map_eff in
  let count :=
    length (filter (λ v, fusion_succeeds Sample.world map_pos map_phy map_eff v)
              (elements common_ids)) in
  (∃ st' before,
     main Sample.world Sample.start = (Returned tt, st')
     ∧ console st' = console Sample.start ++ before ++ [LSummary count])
  ∧ count ≤ size common_ids
  ∧ ∀ v p_pos p_phy p_eff s,
      map_pos !! v = Some p_pos → map_phy !! v = Some p_phy →
      map_eff !! v = Some p_eff →
      (fusion_succeeds Sample.world map_pos map_phy map_eff v = true
       ↔ (process_fusion Sample.world v p_pos p_phy p_eff s).1 = Returned true).
Proof.
  apply (summary_counts_successful_ids Sample.world Sample.start
           Sample.start Sample.start Sample.start
           (map_files Sample.world PATH_POS Sample.start).2
           (map_files Sample.world PATH_PHYSNET Sample.start).2
           (map_files Sample.world PATH_EFFPHYS Sample.start).2);
    [reflexivity|vm_compute; reflexivity|vm_compute; reflexivity
    |vm_compute; reflexivity|].
  intros H%(f_equal elements). by vm_compute in H.
Defined.

(** In the sample run the summary shows one success out of four. *)
Example sample_summary_count :
  length (filter (λ v, fusion_succeeds Sample.world (index_of Sample.world PATH_POS)
                         (index_of Sample.world PATH_PHYSNET)
                         (index_of Sample.world PATH_EFFPHYS) v)
            (elements (common_ids_of (index_of Sample.world PATH_POS)
                         (index_of Sample.world PATH_PHYSNET)
                         (index_of Sample.world PATH_EFFPHYS))))
  = 1.
Proof. by vm_compute. Qed.

(** X16: end to end.  A recording that is in all three dictionaries,
    whose three files are read, whose overlap has at least 30 samples and
    whose two writes succeed has, after the whole run, its CSV and its
    graph among the output files, both holding its own fused series; what
    the run does for the other ids does not disturb them. *)
Theorem fused_id_has_both_files_after_the_run
    (w : World) (st s1 s2 s3 s1' s2' s3' : State)
    (map_pos map_phy map_eff : gmap string string)
    (vid_id p_pos p_phy p_eff : string) (d_pos d_phy d_eff : DataFrame) :
  makedirs_error w = None →
  map_files w PATH_POS s1 = (Returned map_pos, s1') →
  map_files w PATH_PHYSNET s2 = (Returned map_phy, s2') →
  map_files w PATH_EFFPHYS s3 = (Returned map_eff, s3') →
  map_pos !! vid_id = Some p_pos →
  map_phy !! vid_id = Some p_phy →
  map_eff !! vid_id = Some p_eff →
  csv_at w p_pos = inr d_pos →
  csv_at w p_phy = inr d_phy →
  csv_at w p_eff = inr d_eff →
  let min_len :=
    Nat.min (Nat.min (length (signal_of w d_pos)) (length (signal_of w d_phy)))
            (length (signal_of w d_eff)) in
  30 ≤ min_len →
  to_csv_error w (out_csv_path w vid_id) = None →
  savefig_error w (out_png_path w vid_id) = None →
  let time_axis := take min_len (fst <$> df_rows d_pos) in
  let fused :=
    weighted (take min_len (signal_of w d_pos)) (take min_len (signal_of w d_phy))
             (take min_len (signal_of w d_eff)) in
  out_files (main w st).2 !! out_csv_path w vid_id = Some (CsvTable time_axis fused)
  ∧ out_files (main w st).2 !! out_png_path w vid_id = Some (PngGraph time_axis fused).
Proof.
  intros Hmk ->%map_files_returns ->%map_files_returns ->%map_files_returns
    E1 E2 E3 Hpos Hphy Heff min_len Hlen Hcsv Hpng time_axis fused.
  rewrite main_summary by done. cbn [snd out_files].
  set (common_ids := common_ids_of _ _ _).
  assert (Hin : vid_id ∈ set_iteration w common_ids).
  { apply elem_of_set_iteration. unfold common_ids, common_ids_of.
    rewrite !elem_of_intersection, !elem_of_dom. by eauto. }
  assert (Hw : fusion_writes w vid_id p_pos p_phy p_eff
               = <[out_png_path w vid_id := PngGraph time_axis fused]>
                   (<[out_csv_path w vid_id := CsvTable time_axis fused]> ∅)).
  { unfold fusion_writes.
    rewrite (fusion_body_loaded w vid_id p_pos p_phy p_eff d_pos d_phy d_eff) by done.
    fold min_len. rewrite decide_False by lia. by rewrite Hcsv, Hpng. }
  split; apply lookup_union_Some_l;
    eapply (loop_writes_own w _ _ _ (set_iteration w common_ids) vid_id);
    try done; try apply NoDup_set_iteration; try apply common_ids_mapped.
  - by left.
  - rewrite Hw, lookup_insert_ne by (apply not_eq_sym, out_csv_png_distinct).
    apply lookup_insert_eq.
  - by right.
  - rewrite Hw. apply lookup_insert_eq.
Qed.

Lemma fused_id_has_both_files_after_the_run_witness :
  let min_len :=
    Nat.min (Nat.min (length (signal_of Sample.world Sample.pos_frame))
                     (length (signal_of Sample.world Sample.phy_frame)))
            (length (signal_of Sample.world Sample.eff_frame)) in
  let time_axis := take min_len (fst <$> df_rows Sample.pos_frame) in
  let fused :=
    weighted (take min_len (signal_of Sample.world Sample.pos_frame))
             (take min_len (signal_of Sample.world Sample.phy_frame))
             (take min_len (signal_of Sample.world Sample.eff_frame)) in
  out_files (main Sample.world Sample.start).2 !! out_csv_path Sample.world "foo"
  = Some (CsvTable time_axis fused)
  ∧ out_files (main Sample.world Sample.start).2 !! out_png_path Sample.world "foo"
    = Some (PngGraph time_axis fused).
Proof.
  apply (fused_id_has_both_files_after_the_run Sample.world Sample.start
           Sample.start Sample.start Sample.start
           (map_files Sample.world PATH_POS Sample.start).2
           (map_files Sample.world PATH_PHYSNET Sample.start).2
           (map_files Sample.world PATH_EFFPHYS Sample.start).2
           (index_of Sample.world PATH_POS) (index_of Sample.world PATH_PHYSNET)
           (index_of Sample.world PATH_EFFPHYS) "foo"
           (Sample.pos_path "foo_filtered.csv") (Sample.phy_path "foo_trace.csv")
           (Sample.eff_path "foo_clean.csv"));
    [reflexivity|vm_compute; reflexivity|vm_compute; reflexivity
    |vm_compute; reflexivity|vm_compute; reflexivity|vm_compute; reflexivity
    |vm_compute; reflexivity|reflexivity|reflexivity|reflexivity
    |vm_compute; lia|reflexivity|reflexivity].
Defined.

(** X17: the run keeps to the files of the common ids.  A path that is
    neither the CSV nor the graph of a common id holds after the run what
    it held before: files of other kinds and output of ids that are not
    common this time stay as they were. *)
Theorem run_changes_only_files_of_common_ids
    (w : World) (st s1 s2 s3 s1' s2' s3' : State)
    (map_pos map_phy map_eff : gmap string string) (path : string) :
  map_files w PATH_POS s1 = (Returned map_pos, s1') →
  map_files w PATH_PHYSNET s2 = (Returned map_phy, s2') →
  map_files w PATH_EFFPHYS s3 = (Returned map_eff, s3') →
  (∀ v, v ∈ common_ids_of map_pos map_phy map_eff →
        path ≠ out_csv_path w v ∧ path ≠ out_png_path w v) →
  out_files (main w st).2 !! path = out_files st !! path.
Proof.
  intros ->%map_files_returns ->%map_files_returns ->%map_files_returns Hpath.
  destruct (makedirs_error w) as [e|] eqn:Hmk.
  { by rewrite (main_makedirs_fails w st e Hmk). }
  rewrite main_summary by done. cbn [snd out_files].
  apply lookup_union_r, loop_writes_foreign.
  intros v Hv%elem_of_set_iteration. by apply Hpath.
Qed.

(** Started with an old CSV of [baz] in the output folder, the sample run
    leaves it as it is: [baz] is not a common id. *)
Lemma run_changes_only_files_of_common_ids_witness :
  out_files (main Sample.world Sample2.used_start).2 !! out_csv_path Sample.world "baz"
  = out_files Sample2.used_start !! out_csv_path Sample.world "baz".
Proof.
  apply (run_changes_only_files_of_common_ids Sample.world Sample2.used_start
           Sample.start Sample.start Sample.start
           (map_files Sample.world PATH_POS Sample.start).2
           (map_files Sample.world PATH_PHYSNET Sample.start).2
           (map_files Sample.world PATH_EFFPHYS Sample.start).2
           (index_of Sample.world PATH_POS) (index_of Sample.world PATH_PHYSNET)
           (index_of Sample.world PATH_EFFPHYS) (out_csv_path Sample.world "baz"));
    [vm_compute; reflexivity|vm_compute; reflexivity|vm_compute; reflexivity|].
  intros v Hv%elem_of_elements. vm_compute in Hv.
  repeat (apply elem_of_cons in Hv as [->|Hv]; [by vm_compute|]).
  by inversion Hv.
Defined.

(** What the run changes and what it keeps in that folder: the old CSV of
    [foo] is replaced, the old CSV of [baz] and the notes stay. *)
Example sample_run_on_used_folder :
  let after := out_files (main Sample.world Sample2.used_start).2 in
  after !! out_csv_path Sample.world "baz" = Some (CsvTable ["0"; "1"] [1%float; 2%float])
  ∧ after !! path_join Sample.world OUTPUT_FOLDER "notes.txt" = Some (PngGraph [] [])
  ∧ after !! out_csv_path Sample.world "foo"
    ≠ out_files Sample2.used_start !! out_csv_path Sample.world "foo"
  ∧ out_files Sample2.used_start !! out_csv_path Sample.world "foo"
    = Some (CsvTable ["0"] [9%float]).
Proof. by vm_compute. Qed.

(** X18: running again.  A second run of [main] in the same world, on
    the state the first run left, leaves the output files exactly as the
    first run left them: every file is rewritten with the content it
    already has. *)
Theorem second_run_changes_no_file (w : World) (st : State) :
  out_files (main w (main w st).2).2 = out_files (main w st).2.
Proof.
  destruct (makedirs_error w) as [e|] eqn:Hmk.
  - by rewrite !(main_makedirs_fails w _ e Hmk).
  - rewrite !main_summary by done. cbn [snd out_files].
    by rewrite (assoc_L (∪)), (idemp_L (∪)).
Qed.
